(** * pip-accel: the local cache backend and the exception hierarchy

  A shallow embedding of [pip_accel/caches/local.py] and
  [pip_accel/exceptions.py].  The backend's two methods, [get] and [put],
  are written in a small reader/state/error monad over a model of the
  POSIX file system calls they reach through [os.path], [open], [shutil]
  and the helpers of [pip_accel.utils]. *)

From Stdlib Require Import Strings.Ascii Strings.Byte.
From stdpp Require Import gmap strings list fin_maps pretty.

Open Scope string_scope.
Open Scope list_scope.

(** ** Python's [posixpath] on strings *)

Module posixpath.

Definition sep : ascii := "/"%char.

Definition is_sep (c : ascii) : bool := bool_decide (c = sep).

(** [s.startswith('/')] *)
Definition startswith_sep (s : string) : bool :=
  match s with
  | String c _ => is_sep c
  | EmptyString => false
  end.

(** [s.endswith('/')] *)
Fixpoint endswith_sep (s : string) : bool :=
  match s with
  | EmptyString => false
  | String c EmptyString => is_sep c
  | String _ r => endswith_sep r
  end.

(** [os.path.join(a, b)]:
    if [b] starts with a slash it replaces [a]; if [a] is empty or ends
    with a slash [b] is appended; otherwise a slash goes in between. *)
Definition join (a b : string) : string :=
  if startswith_sep b then b
  else if bool_decide (a = "") || endswith_sep a then a +:+ b
  else a +:+ "/" +:+ b.

(** ['/' in s] *)
Fixpoint has_sep (s : string) : bool :=
  match s with
  | EmptyString => false
  | String c r => is_sep c || has_sep r
  end.

(** [p[:p.rfind('/') + 1]] *)
Fixpoint head_part (p : string) : string :=
  match p with
  | EmptyString => EmptyString
  | String c r => if has_sep p then String c (head_part r) else EmptyString
  end.

(** [s == '/' * len(s)] *)
Fixpoint all_sep (s : string) : bool :=
  match s with
  | EmptyString => true
  | String c r => is_sep c && all_sep r
  end.

(** [s.rstrip('/')] *)
Fixpoint rstrip_sep (s : string) : string :=
  match s with
  | EmptyString => EmptyString
  | String c r =>
      let r' := rstrip_sep r in
      if is_sep c && bool_decide (r' = "") then EmptyString else String c r'
  end.

(** [os.path.dirname(p)]:
    [head = p[:p.rfind('/') + 1]], stripped of trailing slashes unless it
    is made of slashes only. *)
Definition dirname (p : string) : string :=
  let head := head_part p in
  if negb (bool_decide (head = "")) && negb (all_sep head)
  then rstrip_sep head
  else head.

(** [p.split('/')] *)
Fixpoint split_sep (p : string) : list string :=
  match p with
  | EmptyString => [EmptyString]
  | String c r =>
      if is_sep c then EmptyString :: split_sep r
      else match split_sep r with
           | h :: t => String c h :: t
           | [] => [String c EmptyString]
           end
  end.

End posixpath.

(** ** The exception hierarchy of [pip_accel/exceptions.py] *)

Module exceptions.

(** The classes of the module, with the two built-in classes they and the
    file system calls rest on. *)
Inductive exc_class : Type :=
| Exception
| OSError
| PipAcceleratorError
| NothingToDoError
| EnvironmentMismatchError
| UnknownDistributionFormat
| BinaryDistributionError
| InvalidSourceDistribution
| BuildFailed
| NoBuildOutput
| CacheBackendError
| CacheBackendDisabledError
| SystemDependencyError
| DependencyInstallationRefused
| DependencyInstallationFailed.

#[export] Instance exc_class_eq_dec : EqDecision exc_class.
Proof. solve_decision. Defined.

(** The base named in each [class] statement. *)
Definition base (c : exc_class) : option exc_class :=
  match c with
  | Exception => None
  | OSError => Some Exception
  | PipAcceleratorError => Some Exception
  | NothingToDoError => Some PipAcceleratorError
  | EnvironmentMismatchError => Some PipAcceleratorError
  | UnknownDistributionFormat => Some PipAcceleratorError
  | BinaryDistributionError => Some PipAcceleratorError
  | InvalidSourceDistribution => Some BinaryDistributionError
  | BuildFailed => Some BinaryDistributionError
  | NoBuildOutput => Some BinaryDistributionError
  | CacheBackendError => Some PipAcceleratorError
  | CacheBackendDisabledError => Some CacheBackendError
  | SystemDependencyError => Some PipAcceleratorError
  | DependencyInstallationRefused => Some SystemDependencyError
  | DependencyInstallationFailed => Some SystemDependencyError
  end.

(** The chain of bases of a class, itself first (its method resolution
    order: inheritance is single throughout). *)
Fixpoint bases_upto (depth : nat) (c : exc_class) : list exc_class :=
  c :: match depth, base c with
       | S d, Some b => bases_upto d b
       | _, _ => []
       end.

Definition mro (c : exc_class) : list exc_class := bases_upto 4 c.

(** [issubclass(c, d)] *)
Definition issubclass (c d : exc_class) : bool := bool_decide (d ∈ mro c).

(** The errors of the file system calls. *)
Inductive errno : Type :=
| ENOENT | ENOTDIR | EISDIR | EEXIST | EIO.

#[export] Instance errno_eq_dec : EqDecision errno.
Proof. solve_decision. Defined.

(** A raised exception: its class and, for an [OSError], its [errno]. *)
Record exn : Type := Exn { exc_type : exc_class; exc_errno : option errno }.

(** Whether an [except c] clause handles the exception [e]. *)
Definition catches (c : exc_class) (e : exn) : bool := issubclass (exc_type e) c.

End exceptions.

Import exceptions.

(** ** The file system

    A node is found under its key: the list of directory names that leads to
    it from the root, innermost name first (["pkg.tar.gz"; "cache"; "var"]
    for [/var/cache/pkg.tar.gz]); the root, the empty key, is always a
    directory.  Symbolic links, permissions and a full disk are not modelled. *)

Inductive node : Type :=
| File (content : list byte)
| Dir.

#[export] Instance byte_eq_dec : EqDecision byte := Byte.byte_eq_dec.

#[export] Instance node_eq_dec : EqDecision node.
Proof. solve_decision. Defined.

(** What the calls do to the disk, and what the logger is told.  A call
    changes the disk only by performing one of these events, and the world
    keeps the sequence of the events performed. *)
Inductive event : Type :=
| Log (format : string) (args : list string)
| Mkdir (k : list string)
| Create (k : list string)
| Write (k : list string) (data : list byte)
| Rename (src dst : list string)
| Unlink (k : list string).

Definition append_data (data : list byte) (n : node) : node :=
  match n with
  | File content => File (content ++ data)
  | Dir => Dir
  end.

Definition apply_event (ev : event) (disk : gmap (list string) node) : gmap (list string) node :=
  match ev with
  | Log _ _ => disk
  | Mkdir k => <[k := Dir]> disk
  | Create k => <[k := File []]> disk
  | Write k data => alter (append_data data) k disk
  | Rename src dst =>
      match disk !! src with
      | Some n => <[dst := n]> (delete src disk)
      | None => disk
      end
  | Unlink k => delete k disk
  end.

Definition replay (evs : list event) (disk : gmap (list string) node) : gmap (list string) node :=
  foldl (fun d ev => apply_event ev d) disk evs.

Record world : Type := World { fs : gmap (list string) node; trace : list event }.

(** The attributes of the calling process that the calls read. *)
Record process : Type := Process { pid : nat; cwd : list string }.

Definition lookup_node (disk : gmap (list string) node) (k : list string) : option node :=
  match k with
  | [] => Some Dir
  | _ => disk !! k
  end.

(** One step of path resolution from the directory [cur]. *)
Definition enter_component (cur : list string) (c : string) : list string :=
  if bool_decide (c = "") || bool_decide (c = ".") then cur
  else if bool_decide (c = "..") then tail cur
  else c :: cur.

(** Path resolution: each component is looked up in a directory, so what
    has been resolved so far must be one ([ENOTDIR] for a regular file,
    [ENOENT] for nothing); the node the last component names need not exist. *)
Fixpoint walk (disk : gmap (list string) node) (cur : list string) (comps : list string)
  : errno + list string :=
  match comps with
  | [] => inr cur
  | c :: rest =>
      match lookup_node disk cur with
      | Some Dir => walk disk (enter_component cur c) rest
      | Some (File _) => inl ENOTDIR
      | None => inl ENOENT
      end
  end.

Definition start_dir (proc : process) (p : string) : list string :=
  if posixpath.startswith_sep p then [] else cwd proc.

Definition resolve (disk : gmap (list string) node) (proc : process) (p : string)
  : errno + list string :=
  if bool_decide (p = "") then inl ENOENT
  else walk disk (start_dir proc p) (posixpath.split_sep p).

(** ** The monad of the modelled code: it reads the process, changes the
    world and returns or raises. *)

Inductive outcome (A : Type) : Type :=
| Return (a : A)
| Raise (e : exn).

Arguments Return {A} a.
Arguments Raise {A} e.

Definition M (A : Type) : Type := process -> world -> outcome A * world.

Definition ret {A : Type} (a : A) : M A := fun _ w => (Return a, w).

Definition bind {A B : Type} (m : M A) (f : A -> M B) : M B := fun proc w =>
  match m proc w with
  | (Return a, w') => f a proc w'
  | (Raise e, w') => (Raise e, w')
  end.

Notation "x <- m ;; k" := (bind m (fun x => k))
  (at level 100, m at next level, k at level 200, right associativity).

Notation "m ;;; k" := (bind m (fun _ => k))
  (at level 100, k at level 200, right associativity).

Definition raise {A : Type} (e : exn) : M A := fun _ w => (Raise e, w).

Definition raise_OSError {A : Type} (code : errno) : M A :=
  raise (Exn OSError (Some code)).

Definition perform (ev : event) : M unit := fun _ w =>
  (Return tt, World (apply_event ev (fs w)) (trace w ++ [ev])).

Definition get_disk : M (gmap (list string) node) := fun _ w => (Return (fs w), w).

Definition get_process : M process := fun proc w => (Return proc, w).

(** [try: body / except cls: handler] *)
Definition try_except {A : Type} (body : M A) (cls : exc_class) (handler : exn -> M A) : M A :=
  fun proc w =>
    match body proc w with
    | (Raise e, w') => if catches cls e then handler e proc w' else (Raise e, w')
    | r => r
    end.

(** A context manager: [__enter__] and [__exit__], the latter given the
    exception that left the body, if one did, and answering whether to
    suppress it. *)
Record context_manager (A : Type) : Type :=
  ContextManager { enter : M A; exit : option exn -> M bool }.

Arguments ContextManager {A} enter exit.
Arguments enter {A} c.
Arguments exit {A} c.

(** [with expr as x: body] *)
Definition with_ {A : Type} (expr : M (context_manager A)) (body : A -> M unit) : M unit :=
  cm <- expr;;
  x <- enter cm;;
  fun proc w =>
    match body x proc w with
    | (Return _, w1) => (exit cm None;;; ret tt) proc w1
    | (Raise e, w1) =>
        match exit cm (Some e) proc w1 with
        | (Return true, w2) => (Return tt, w2)
        | (Return false, w2) => (Raise e, w2)
        | (Raise e', w2) => (Raise e', w2)
        end
    end.

(** ** The calls *)

(** [logger.debug(format, *args)] *)
Definition logger_debug (format : string) (args : list string) : M unit :=
  perform (Log format args).

Definition resolve_path (p : string) : M (list string) :=
  disk <- get_disk;;
  proc <- get_process;;
  match resolve disk proc p with
  | inl code => raise_OSError code
  | inr k => ret k
  end.

(** [os.stat(p)], as far as the kind of the node and its content go. *)
Definition os_stat (p : string) : M node :=
  k <- resolve_path p;;
  disk <- get_disk;;
  match lookup_node disk k with
  | Some n => ret n
  | None => raise_OSError ENOENT
  end.

Definition S_ISREG (n : node) : bool :=
  match n with
  | File _ => true
  | Dir => false
  end.

(** [os.path.isfile(p)]: [os.stat] and [S_ISREG], [False] on [OSError]. *)
Definition os_path_isfile (p : string) : M bool :=
  try_except (st <- os_stat p;; ret (S_ISREG st)) OSError (fun _ => ret false).

(** An open file: the node it was opened on. *)
Record file_object : Type := FileObject { fo_key : list string }.

(** [f.write(data)] *)
Definition file_write (f : file_object) (data : list byte) : M unit :=
  perform (Write (fo_key f) data).

(** The system call under [open(p, 'wb')]: the file is created, or truncated
    when it exists. *)
Definition open_file (p : string) : M file_object :=
  k <- resolve_path p;;
  disk <- get_disk;;
  match lookup_node disk k with
  | Some Dir => raise_OSError EISDIR
  | _ => perform (Create k);;; ret (FileObject k)
  end.

(** [open(p, 'wb')]: as a context manager the file object gives itself and
    closes on exit. *)
Definition open_wb (p : string) : M (context_manager file_object) :=
  f <- open_file p;;
  ret (ContextManager (ret f) (fun _ => ret false)).

(** [os.rename(src, dst)] of a regular file: it replaces a regular file at
    [dst] and fails on a directory there.  Renaming a directory is not
    modelled and reported as [EIO]. *)
Definition os_rename (src dst : string) : M unit :=
  ks <- resolve_path src;;
  kd <- resolve_path dst;;
  disk <- get_disk;;
  match lookup_node disk ks with
  | None => raise_OSError ENOENT
  | Some Dir => raise_OSError EIO
  | Some (File _) =>
      match lookup_node disk kd with
      | Some Dir => raise_OSError EISDIR
      | _ => perform (Rename ks kd)
      end
  end.

(** [os.unlink(p)] *)
Definition os_unlink (p : string) : M unit :=
  k <- resolve_path p;;
  disk <- get_disk;;
  match lookup_node disk k with
  | None => raise_OSError ENOENT
  | Some Dir => raise_OSError EISDIR
  | Some (File _) => perform (Unlink k)
  end.

(** What successive [read(length)] calls on a file-like object give: bytes,
    or an [OSError]; once the list is used up, the empty bytes of the end of
    the stream. *)
Inductive read_result : Type :=
| Bytes (data : list byte)
| ReadError (code : errno).

(** [shutil.copyfileobj(fsrc, fdst)]:
    [while 1: buf = fsrc.read(length); if not buf: break; fdst.write(buf)] *)
Fixpoint copyfileobj (fsrc : list read_result) (fdst : file_object) : M unit :=
  match fsrc with
  | [] => ret tt
  | Bytes [] :: _ => ret tt
  | Bytes buf :: rest => file_write fdst buf;;; copyfileobj rest fdst
  | ReadError code :: _ => raise_OSError code
  end.

(** ** The helpers of [pip_accel.utils] *)

(** Modelled from the spec: one step of [makedirs] of [pip_accel.utils],
    which is not among the sources.  The spec has [put] "ensure the parent
    directory chain exists" and "create any intermediate storage structure
    (directories, containers) needed": a directory along the path that is
    missing is created, one that exists is left alone, and a regular file
    in the way is an error. *)
Definition ensure_dir (cur : list string) (c : string) : M (list string) :=
  disk <- get_disk;;
  match lookup_node disk cur with
  | Some Dir =>
      let next := enter_component cur c in
      match lookup_node disk next with
      | Some Dir => ret next
      | Some (File _) => raise_OSError ENOTDIR
      | None =>
          if bool_decide (next = c :: cur)
          then perform (Mkdir next);;; ret next
          else raise_OSError ENOENT
      end
  | Some (File _) => raise_OSError ENOTDIR
  | None => raise_OSError ENOENT
  end.

(** Modelled from the spec: the steps of [makedirs] along the components of
    a path, from the directory [cur]. *)
Fixpoint makedirs_from (cur : list string) (comps : list string) : M unit :=
  match comps with
  | [] => ret tt
  | c :: rest => next <- ensure_dir cur c;; makedirs_from next rest
  end.

(** Modelled from the spec: [makedirs] of [pip_accel.utils], along the
    components of the path; the empty path names no directory and is an
    error. *)
Definition makedirs (p : string) : M unit :=
  if bool_decide (p = "") then raise_OSError ENOENT
  else
    proc <- get_process;;
    makedirs_from (start_dir proc p) (posixpath.split_sep p).

(** Modelled from the spec: the temporary path of the atomic write
    primitive, "a temporary path in the same directory" with "a
    sufficiently unique temp suffix": the target path followed by a suffix
    that carries the identifier of the writing process. *)
Definition temporary_path (filename : string) (proc : process) : string :=
  filename +:+ ".tmp-" +:+ pretty (pid proc).

(** Modelled from the spec: the deletion of the temporary path by the
    atomic write primitive; a temporary file that is not there to delete is
    not a further error. *)
Definition discard (temporary_file : string) : M unit :=
  try_except (os_unlink temporary_file) OSError (fun _ => ret tt).

(** Modelled from the spec: [AtomicReplace] of [pip_accel.utils], which is
    not among the sources.  The scope yields the temporary path; "on normal
    (non-error) exit from the scope, the primitive renames the temporary
    path onto the target path"; "on error exit (an exception/fault
    propagating out of the scope), the primitive deletes the temporary path
    and does not touch the target path".  Temporary artifacts "are cleaned
    up on every exit path (success commits and renames away the temp name;
    failure deletes it)", so a rename that fails deletes the temporary path
    as well before its error propagates.  No exception is suppressed. *)
Definition AtomicReplace (filename : string) : M (context_manager string) :=
  proc <- get_process;;
  let temporary_file := temporary_path filename proc in
  ret (ContextManager
         (ret temporary_file)
         (fun exc =>
            match exc with
            | None =>
                try_except (os_rename temporary_file filename) OSError
                  (fun e => discard temporary_file;;; raise e);;;
                ret false
            | Some _ => discard temporary_file;;; ret false
            end)).

(** ** [pip_accel/caches/local.py] *)

Record Config : Type := { binary_cache : string }.

Record LocalCacheBackend : Type := { config : Config }.

Definition PRIORITY : Z := 10.

Definition get (self : LocalCacheBackend) (filename : string) : M (option string) :=
  let pathname := posixpath.join (binary_cache (config self)) filename in
  found <- os_path_isfile pathname;;
  if found then
    logger_debug "Distribution archive exists in local cache (%s)." [pathname];;;
    ret (Some pathname)
  else
    logger_debug "Distribution archive doesn't exist in local cache (%s)." [pathname];;;
    ret None.

(** The body of the two [with] statements of [put]. *)
Definition write_body (handle : list read_result) (temporary_file : string) : M unit :=
  with_ (open_wb temporary_file) (fun temporary_file_handle =>
    copyfileobj handle temporary_file_handle).

Definition put (self : LocalCacheBackend) (filename : string) (handle : list read_result)
  : M unit :=
  let file_in_cache := posixpath.join (binary_cache (config self)) filename in
  logger_debug "Storing distribution archive in local cache: %s" [file_in_cache];;;
  makedirs (posixpath.dirname file_in_cache);;;
  with_ (AtomicReplace file_in_cache) (write_body handle);;;
  logger_debug "Finished caching distribution archive in local cache." [].

(** ** What the claims speak of *)

(** The node a path leads to in a world, if it leads to one. *)
Definition node_at (w : world) (proc : process) (p : string) : option node :=
  match resolve (fs w) proc p with
  | inr k => lookup_node (fs w) k
  | inl _ => None
  end.

(** The buffers [copyfileobj] reads from a stream before it stops. *)
Fixpoint chunks_read (fsrc : list read_result) : list (list byte) :=
  match fsrc with
  | Bytes (b :: buf) :: rest => (b :: buf) :: chunks_read rest
  | _ => []
  end.

(** The error that stops the reading, if one does. *)
Fixpoint stream_fault (fsrc : list read_result) : option errno :=
  match fsrc with
  | Bytes (_ :: _) :: rest => stream_fault rest
  | ReadError code :: _ => Some code
  | _ => None
  end.

(** The bytes of a stream up to its end. *)
Definition stream_bytes (fsrc : list read_result) : list byte := concat (chunks_read fsrc).

(** The suffix of the temporary path. *)
Definition tmp_suffix (proc : process) : string := ".tmp-" +:+ pretty (pid proc).

(** ** Path resolution and the directories of a disk *)

(** Every directory of the first disk is a directory of the second. *)
Definition dirs_le (d d' : gmap (list string) node) : Prop :=
  ∀ k, lookup_node d k = Some Dir → lookup_node d' k = Some Dir.

Definition key_of (r : errno + list string) : option (list string) :=
  match r with
  | inr k => Some k
  | inl _ => None
  end.

(** ** Worlds and the events performed on them *)

(** The world after a sequence of events has been performed. *)
Definition record (evs : list event) (w : world) : world :=
  World (replay evs (fs w)) (trace w ++ evs).

Arguments record : simpl never.

Definition copy_events (k : list string) (fsrc : list read_result) : list event :=
  map (Write k) (chunks_read fsrc).

Definition copy_outcome (fsrc : list read_result) : outcome unit :=
  match stream_fault fsrc with
  | Some code => Raise (Exn OSError (Some code))
  | None => Return tt
  end.

(** ** The ways out of the write scope of [put] *)

Inductive scope_exit (target : string) (handle : list read_result) (proc : process) (w : world)
  : outcome unit → world → Prop :=
| scope_not_opened code :
    (∀ kt, resolve (fs w) proc (temporary_path target proc) = inr kt →
           lookup_node (fs w) kt = Some Dir) →
    scope_exit target handle proc w (Raise (Exn OSError (Some code))) w
| scope_aborted kt code :
    resolve (fs w) proc (temporary_path target proc) = inr kt →
    lookup_node (fs w) kt ≠ Some Dir →
    stream_fault handle = Some code ∨
    (stream_fault handle = None ∧
     ∀ kd, resolve (fs w) proc target = inr kd → lookup_node (fs w) kd = Some Dir) →
    scope_exit target handle proc w (Raise (Exn OSError (Some code)))
      (record (Create kt :: copy_events kt handle ++ [Unlink kt]) w)
| scope_committed kt kd :
    resolve (fs w) proc (temporary_path target proc) = inr kt →
    lookup_node (fs w) kt ≠ Some Dir →
    stream_fault handle = None →
    resolve (fs w) proc target = inr kd →
    lookup_node (fs w) kd ≠ Some Dir →
    scope_exit target handle proc w (Return tt)
      (record (Create kt :: copy_events kt handle ++ [Rename kt kd]) w).

(** The second disk is the first one with directories added. *)
Definition adds_dirs (d d' : gmap (list string) node) : Prop :=
  ∀ k, lookup_node d' k = lookup_node d k ∨
       (lookup_node d k = None ∧ lookup_node d' k = Some Dir).

(** ** Exceptions of the backend *)

Definition raises_disabled {A : Type} (r : outcome A) : bool :=
  match r with
  | Raise e => catches CacheBackendDisabledError e
  | Return _ => false
  end.

(** ** Files that were never written *)

Definition is_file (n : option node) : bool :=
  match n with
  | Some (File _) => true
  | _ => false
  end.

(** Whether an event puts a regular file under the key. *)
Definition writes_file (k : list string) (ev : event) : bool :=
  match ev with
  | Create k' => bool_decide (k' = k)
  | Rename _ dst => bool_decide (dst = k)
  | _ => false
  end.

(** The path was never written: where it leads, the disk the history
    started from had no regular file, and no event of the history since has
    put one there. *)
Definition never_written (disk0 : gmap (list string) node) (w : world) (proc : process)
    (p : string) : bool :=
  match resolve (fs w) proc p with
  | inr k =>
      negb (is_file (lookup_node disk0 k)) &&
      forallb (fun ev => negb (writes_file k ev)) (trace w)
  | inl _ => true
  end.

(** ** [put], one system call at a time

    The same [put] as a machine that makes one call per step, so that the
    steps of two processes can be interleaved on one disk. *)

Inductive put_state : Type :=
| PStart
| PMakedirs (cur : list string) (comps : list string)
| POpen
| PCopy (f : file_object) (rest : list read_result)
| PCommit
| PDiscard (e : exn)
| PFinish
| PDone (r : outcome unit).

Definition put_step (self : LocalCacheBackend) (filename : string) (handle : list read_result)
    (st : put_state) (proc : process) (w : world) : put_state * world :=
  let file_in_cache := posixpath.join (binary_cache (config self)) filename in
  let temporary_file := temporary_path file_in_cache proc in
  match st with
  | PStart =>
      let w' :=
        snd (logger_debug "Storing distribution archive in local cache: %s"
               [file_in_cache] proc w) in
      if bool_decide (posixpath.dirname file_in_cache = "")
      then (PDone (Raise (Exn OSError (Some ENOENT))), w')
      else (PMakedirs (start_dir proc (posixpath.dirname file_in_cache))
                      (posixpath.split_sep (posixpath.dirname file_in_cache)), w')
  | PMakedirs cur [] => (POpen, w)
  | PMakedirs cur (c :: rest) =>
      match ensure_dir cur c proc w with
      | (Return next, w') => (PMakedirs next rest, w')
      | (Raise e, w') => (PDone (Raise e), w')
      end
  | POpen =>
      match open_file temporary_file proc w with
      | (Return f, w') => (PCopy f handle, w')
      | (Raise e, w') => (PDiscard e, w')
      end
  | PCopy f [] => (PCommit, w)
  | PCopy f (Bytes [] :: _) => (PCommit, w)
  | PCopy f (Bytes buf :: rest) => (PCopy f rest, snd (file_write f buf proc w))
  | PCopy f (ReadError code :: _) => (PDiscard (Exn OSError (Some code)), w)
  | PCommit =>
      match os_rename temporary_file file_in_cache proc w with
      | (Return _, w') => (PFinish, w')
      | (Raise e, w') => (PDiscard e, w')
      end
  | PDiscard e => (PDone (Raise e), snd (discard temporary_file proc w))
  | PFinish =>
      (PDone (Return tt),
       snd (logger_debug "Finished caching distribution archive in local cache." [] proc w))
  | PDone r => (PDone r, w)
  end.

(** A process on its own: [n] steps in a row. *)
Fixpoint run_steps (self : LocalCacheBackend) (filename : string) (handle : list read_result)
    (n : nat) (st : put_state) (proc : process) (w : world) : put_state * world :=
  match n with
  | O => (st, w)
  | S n' =>
      let '(st', w') := put_step self filename handle st proc w in
      run_steps self filename handle n' st' proc w'
  end.

(** Two processes that [put] the same filename: the schedule says whose
    step comes next, [true] for the first. *)
Fixpoint interleave (self : LocalCacheBackend) (filename : string)
    (h1 h2 : list read_result) (p1 p2 : process) (schedule : list bool)
    (st1 st2 : put_state) (w : world) : put_state * put_state * world :=
  match schedule with
  | [] => (st1, st2, w)
  | true :: schedule' =>
      let '(st1', w') := put_step self filename h1 st1 p1 w in
      interleave self filename h1 h2 p1 p2 schedule' st1' st2 w'
  | false :: schedule' =>
      let '(st2', w') := put_step self filename h2 st2 p2 w in
      interleave self filename h1 h2 p1 p2 schedule' st1 st2' w'
  end.

(** What a process holds between its steps: while it copies, the temporary
    file has the bytes written so far; before it commits, the whole stream. *)
Definition proc_inv (self : LocalCacheBackend) (filename : string) (handle : list read_result)
    (proc : process) (st : put_state) (w : world) : Prop :=
  let target := posixpath.join (binary_cache (config self)) filename in
  let tmp := temporary_path target proc in
  match st with
  | PCopy f rest =>
      resolve (fs w) proc tmp = inr (fo_key f) ∧
      ∃ content,
        lookup_node (fs w) (fo_key f) = Some (File content) ∧
        (stream_fault rest = None → content ++ stream_bytes rest = stream_bytes handle)
  | PCommit =>
      ∃ kt,
        resolve (fs w) proc tmp = inr kt ∧
        lookup_node (fs w) kt = Some (File (stream_bytes handle))
  | _ => True
  end.

(** The process has renamed its temporary file onto the target. *)
Definition committed (st : put_state) : bool :=
  match st with
  | PFinish | PDone (Return _) => true
  | _ => false
  end.

(** A step that does not commit changes the temporary file of its process at
    most, or adds a directory. *)
Definition quiet_step (target : string) (proc : process) (w w' : world) : Prop :=
  dirs_le (fs w) (fs w') ∧
  ∀ k, lookup_node (fs w') k = lookup_node (fs w) k ∨
       (lookup_node (fs w) k = None ∧ lookup_node (fs w') k = Some Dir) ∨
       resolve (fs w) proc (temporary_path target proc) = inr k.

(** A step that commits changes the temporary file and the target. *)
Definition commit_step (target : string) (proc : process) (w w' : world) : Prop :=
  dirs_le (fs w) (fs w') ∧
  ∀ k, lookup_node (fs w') k = lookup_node (fs w) k ∨
       resolve (fs w) proc (temporary_path target proc) = inr k ∨
       resolve (fs w) proc target = inr k.

(** Once a process has committed, the target holds the stream of a process
    that has. *)
Definition target_inv (self : LocalCacheBackend) (filename : string)
    (h1 h2 : list read_result) (p1 : process) (st1 st2 : put_state) (w : world) : Prop :=
  let target := posixpath.join (binary_cache (config self)) filename in
  committed st1 || committed st2 = true →
  (committed st1 = true ∧ node_at w p1 target = Some (File (stream_bytes h1))) ∨
  (committed st2 = true ∧ node_at w p1 target = Some (File (stream_bytes h2))).

Definition pair_inv (self : LocalCacheBackend) (filename : string)
    (h1 h2 : list read_result) (p1 p2 : process) (st1 st2 : put_state) (w : world) : Prop :=
  proc_inv self filename h1 p1 st1 w ∧
  proc_inv self filename h2 p2 st2 w ∧
  target_inv self filename h1 h2 p1 st1 st2 w.

(** The number of steps of a [put]. *)
Definition put_steps (self : LocalCacheBackend) (filename : string)
    (handle : list read_result) : nat :=
  6 + length (posixpath.split_sep
                (posixpath.dirname (posixpath.join (binary_cache (config self)) filename)))
    + length (chunks_read handle).


(** ** A small cache to run the backend on *)

Definition cache : LocalCacheBackend := {| config := {| binary_cache := "/var/cache" |} |}.

Definition proc7 : process := Process 7 ["home"].

Definition empty_world : world := World ∅ [].

Definition hello : list byte := [x68; x65; x6c; x6c; x6f]%byte.

Definition after_put : world := snd (put cache "pkg/a.tar.gz" [Bytes hello] proc7 empty_world).

Definition proc8 : process := Process 8 ["home"].

Definition world_bytes : list byte := [x77; x6f; x72; x6c; x64]%byte.

Definition broken_stream : list read_result := [Bytes hello; ReadError EIO].

(** The world in which the [put] of the broken stream enters its write scope. *)
Definition at_scope_entry : world :=
  snd (makedirs "/var/cache/pkg" proc7
         (record [Log "Storing distribution archive in local cache: %s"
                    ["/var/cache/pkg/a.tar.gz"]] empty_world)).

Definition after_abort : world :=
  snd (with_ (AtomicReplace "/var/cache/pkg/a.tar.gz") (write_body broken_stream)
         proc7 at_scope_entry).

Definition after_second_put : world :=
  snd (put cache "pkg/a.tar.gz" [Bytes hello] proc7 after_put).

Definition alternate : list bool :=
  [true; false; true; false; true; false; true; false; true; false; true; false;
   true; false; true; false; true; false; true; false; true; false].

Definition after_both : world :=
  snd (interleave cache "pkg/a.tar.gz" [Bytes hello] [Bytes world_bytes] proc7 proc8
         alternate PStart PStart empty_world).

Definition after_other_put : world :=
  snd (put cache "pkg/b.tar.gz" [Bytes world_bytes] proc7 after_put).

Definition after_failed_put : world :=
  snd (put cache "pkg/a.tar.gz" broken_stream proc7 after_put).


Definition archive_key : list string := ["a.tar.gz"; "pkg"; "cache"; "var"].

(** * Proofs *)

(** ** [posixpath] on examples *)

Example join_plain : posixpath.join "/var/cache" "pkg.tar.gz" = "/var/cache/pkg.tar.gz".
Proof. reflexivity. Qed.

Example join_trailing : posixpath.join "/var/cache/" "pkg.tar.gz" = "/var/cache/pkg.tar.gz".
Proof. reflexivity. Qed.

Example join_absolute : posixpath.join "/var/cache" "/etc/passwd" = "/etc/passwd".
Proof. reflexivity. Qed.

Example join_empty : posixpath.join "/var/cache" "" = "/var/cache/".
Proof. reflexivity. Qed.

Example dirname_plain : posixpath.dirname "/var/cache/sub/pkg.tar.gz" = "/var/cache/sub".
Proof. reflexivity. Qed.

Example dirname_slashes : posixpath.dirname "//pkg" = "//".
Proof. reflexivity. Qed.

Example dirname_double : posixpath.dirname "a//b" = "a".
Proof. reflexivity. Qed.

Example dirname_none : posixpath.dirname "pkg" = "".
Proof. reflexivity. Qed.

Example split_example : posixpath.split_sep "/a//b/" = [""; "a"; ""; "b"; ""].
Proof. reflexivity. Qed.

Lemma get_run self filename proc w :
  get self filename proc w =
  let pathname := posixpath.join (binary_cache (config self)) filename in
  match node_at w proc pathname with
  | Some (File _) =>
      (Return (Some pathname),
       World (fs w) (trace w ++ [Log "Distribution archive exists in local cache (%s)." [pathname]]))
  | _ =>
      (Return None,
       World (fs w) (trace w ++ [Log "Distribution archive doesn't exist in local cache (%s)." [pathname]]))
  end.
Proof.
  unfold get, os_path_isfile, try_except, os_stat, resolve_path, node_at, bind, get_disk, get_process.
  cbn.
  destruct (resolve (fs w) proc _) as [code|k]; cbn; [reflexivity|].
  destruct (lookup_node (fs w) k) as [[content|]|]; reflexivity.
Qed.

(** ** Strings and path components *)

Lemma string_length_app (s t : string) :
  String.length (s +:+ t) = String.length s + String.length t.
Proof. induction s as [|c s IH]; simpl; [reflexivity | now f_equal]. Qed.

Lemma string_app_ne_self (s t : string) : t ≠ "" → s +:+ t ≠ s.
Proof.
  intros Ht Heq. apply (f_equal String.length) in Heq.
  rewrite string_length_app in Heq.
  destruct t; [congruence | simpl in Heq; lia].
Qed.

Lemma has_sep_app (s t : string) :
  posixpath.has_sep (s +:+ t) = posixpath.has_sep s || posixpath.has_sep t.
Proof.
  induction s as [|c s IH]; simpl; [reflexivity|].
  rewrite IH. now rewrite orb_assoc.
Qed.

Lemma split_sep_no_sep (s : string) :
  posixpath.has_sep s = false → posixpath.split_sep s = [s].
Proof.
  induction s as [|c s IH]; simpl; [reflexivity|].
  intros H. apply orb_false_iff in H as [Hc Hs].
  rewrite Hc, (IH Hs). reflexivity.
Qed.

(** Appending a suffix without a slash lengthens the last component. *)
Lemma split_sep_suffix (s sfx : string) :
  posixpath.has_sep sfx = false →
  ∃ init c,
    posixpath.split_sep s = init ++ [c] ∧
    posixpath.split_sep (s +:+ sfx) = init ++ [c +:+ sfx].
Proof.
  intros Hsfx. induction s as [|a s (init & c & Hs & Hs')]; simpl.
  - exists [], "". split; [reflexivity|]. now apply split_sep_no_sep.
  - destruct (posixpath.is_sep a).
    + exists ("" :: init), c. rewrite Hs, Hs'. split; reflexivity.
    + rewrite Hs, Hs'. destruct init as [|i0 init]; simpl.
      * exists [], (String a c). split; reflexivity.
      * exists (String a i0 :: init), c. split; reflexivity.
Qed.

Lemma pretty_N_go_no_sep (x : N) (s : string) :
  posixpath.has_sep s = false → posixpath.has_sep (pretty_N_go x s) = false.
Proof.
  revert s. induction (N.lt_wf_0 x) as [x _ IH]; intros s Hs.
  destruct (decide (x = 0%N)) as [->|Hx].
  - now rewrite pretty_N_go_0.
  - rewrite pretty_N_go_step by lia.
    apply IH; [apply N.div_lt; lia|].
    simpl. rewrite Hs. unfold pretty_N_char.
    repeat case_match; reflexivity.
Qed.

Lemma pretty_nat_no_sep (n : nat) : posixpath.has_sep (pretty n) = false.
Proof.
  unfold pretty, pretty_nat, pretty, pretty_N.
  case_decide; [reflexivity|]. now apply pretty_N_go_no_sep.
Qed.

Lemma temporary_path_suffix filename proc :
  temporary_path filename proc = filename +:+ tmp_suffix proc.
Proof. reflexivity. Qed.

Lemma tmp_suffix_no_sep proc : posixpath.has_sep (tmp_suffix proc) = false.
Proof.
  unfold tmp_suffix. rewrite has_sep_app, pretty_nat_no_sep. reflexivity.
Qed.

Lemma tmp_suffix_length proc : (5 ≤ String.length (tmp_suffix proc))%nat.
Proof. unfold tmp_suffix. rewrite string_length_app. simpl. lia. Qed.

Lemma enter_component_suffix cur c proc :
  enter_component cur (c +:+ tmp_suffix proc) = (c +:+ tmp_suffix proc) :: cur.
Proof.
  assert (5 ≤ String.length (c +:+ tmp_suffix proc))%nat as Hlen.
  { rewrite string_length_app. pose proof (tmp_suffix_length proc). lia. }
  unfold enter_component.
  repeat case_bool_decide; simpl; try reflexivity;
    match goal with H : _ +:+ _ = _ |- _ => rewrite H in Hlen; simpl in Hlen; lia end.
Qed.

Lemma tmp_suffix_inj p1 p2 : tmp_suffix p1 = tmp_suffix p2 → pid p1 = pid p2.
Proof.
  unfold tmp_suffix. intros H.
  apply (inj (String.app ".tmp-")) in H. now apply (inj pretty) in H.
Qed.

(** ** Path resolution and the directories of a disk *)

Lemma dirs_le_refl d : dirs_le d d.
Proof. intros k H. exact H. Qed.

Lemma dirs_le_trans d1 d2 d3 : dirs_le d1 d2 → dirs_le d2 d3 → dirs_le d1 d3.
Proof. intros H12 H23 k H. now apply H23, H12. Qed.

Lemma lookup_node_root d : lookup_node d [] = Some Dir.
Proof. reflexivity. Qed.

Lemma not_dir_not_root d k : lookup_node d k ≠ Some Dir → k ≠ [].
Proof. intros H ->. now apply H. Qed.

Lemma lookup_node_insert d k n k' :
  k ≠ [] →
  lookup_node (<[k := n]> d) k' = if decide (k = k') then Some n else lookup_node d k'.
Proof.
  intros Hk. destruct k' as [|c k']; simpl.
  - now rewrite decide_False.
  - apply lookup_insert.
Qed.

Lemma lookup_node_delete d k k' :
  k ≠ [] →
  lookup_node (delete k d) k' = if decide (k = k') then None else lookup_node d k'.
Proof.
  intros Hk. destruct k' as [|c k']; simpl.
  - now rewrite decide_False.
  - apply lookup_delete.
Qed.

Lemma lookup_node_alter d f k k' :
  k ≠ [] →
  lookup_node (alter f k d) k' = if decide (k = k') then f <$> lookup_node d k' else lookup_node d k'.
Proof.
  intros Hk. destruct k' as [|c k']; simpl.
  - now rewrite decide_False.
  - rewrite lookup_alter. case_decide; [now subst | reflexivity].
Qed.

Lemma dirs_le_insert_file d k c :
  lookup_node d k ≠ Some Dir → dirs_le d (<[k := File c]> d).
Proof.
  intros Hk k' H. rewrite lookup_node_insert by now apply not_dir_not_root in Hk.
  case_decide; [congruence | exact H].
Qed.

Lemma dirs_le_insert_file_inv d k c : k ≠ [] → dirs_le (<[k := File c]> d) d.
Proof.
  intros Hk k' H. rewrite lookup_node_insert in H by done.
  case_decide; [congruence | exact H].
Qed.

Lemma dirs_le_delete_file d k :
  lookup_node d k ≠ Some Dir → dirs_le d (delete k d).
Proof.
  intros Hk k' H. rewrite lookup_node_delete by now apply not_dir_not_root in Hk.
  case_decide; [congruence | exact H].
Qed.

Lemma dirs_le_delete_inv d k : k ≠ [] → dirs_le (delete k d) d.
Proof.
  intros Hk k' H. rewrite lookup_node_delete in H by done.
  case_decide; [congruence | exact H].
Qed.

Lemma dirs_le_mkdir d k : lookup_node d k = None → dirs_le d (<[k := Dir]> d).
Proof.
  intros Hk k' H. rewrite lookup_node_insert.
  - case_decide; [reflexivity | exact H].
  - intros ->. discriminate.
Qed.

Lemma walk_app d cur a b :
  walk d cur (a ++ b) =
  match walk d cur a with
  | inr cur' => walk d cur' b
  | inl code => inl code
  end.
Proof.
  revert cur. induction a as [|c a IH]; intros cur; simpl; [reflexivity|].
  destruct (lookup_node d cur) as [[?|]|]; try reflexivity. apply IH.
Qed.

Lemma walk_mono d d' cur comps k :
  dirs_le d d' → walk d cur comps = inr k → walk d' cur comps = inr k.
Proof.
  intros Hle. revert cur. induction comps as [|c comps IH]; intros cur; simpl; [done|].
  destruct (lookup_node d cur) as [[?|]|] eqn:Hcur; try discriminate.
  rewrite (Hle _ Hcur). apply IH.
Qed.

Lemma resolve_mono d d' proc p k :
  dirs_le d d' → resolve d proc p = inr k → resolve d' proc p = inr k.
Proof.
  unfold resolve. intros Hle. case_bool_decide; [done|]. now apply walk_mono.
Qed.

(** Disks with the same directories resolve the same paths, to the same keys. *)
Lemma resolve_same_dirs d d' proc p :
  dirs_le d d' → dirs_le d' d →
  key_of (resolve d proc p) = key_of (resolve d' proc p).
Proof.
  intros H1 H2.
  destruct (resolve d proc p) as [code|k] eqn:Hr.
  - destruct (resolve d' proc p) as [code'|k'] eqn:Hr'; [reflexivity|].
    apply (resolve_mono _ _ _ _ _ H2) in Hr'. congruence.
  - now rewrite (resolve_mono _ _ _ _ _ H1 Hr).
Qed.

(** Where the temporary path of a target resolves, the target resolves too,
    in the same directory. *)
Lemma resolve_tmp_inv d proc target kt :
  target ≠ "" →
  resolve d proc (temporary_path target proc) = inr kt →
  ∃ cur c,
    kt = (c +:+ tmp_suffix proc) :: cur ∧
    lookup_node d cur = Some Dir ∧
    resolve d proc target = inr (enter_component cur c).
Proof.
  intros Hne. rewrite temporary_path_suffix. unfold resolve.
  destruct target as [|a target]; [done|].
  rewrite !bool_decide_eq_false_2 by done.
  change (start_dir proc (String a target +:+ tmp_suffix proc))
    with (start_dir proc (String a target)).
  destruct (split_sep_suffix (String a target) (tmp_suffix proc) (tmp_suffix_no_sep proc))
    as (init & c & -> & ->).
  rewrite !walk_app.
  destruct (walk d (start_dir proc (String a target)) init) as [code|cur]; [done|].
  simpl. destruct (lookup_node d cur) as [[?|]|] eqn:Hcur; try done.
  rewrite enter_component_suffix. intros [= <-]. now exists cur, c.
Qed.

Lemma resolve_nonempty d proc p k : resolve d proc p = inr k → p ≠ "".
Proof. unfold resolve. case_bool_decide; [done | now intros _]. Qed.

Lemma enter_component_cases cur c :
  enter_component cur c = cur ∨ enter_component cur c = tail cur ∨
  enter_component cur c = c :: cur.
Proof. unfold enter_component. repeat case_match; auto. Qed.

(** The temporary path and the target never resolve to the same node. *)
Lemma tmp_key_ne_target d proc target kt kd :
  resolve d proc (temporary_path target proc) = inr kt →
  resolve d proc target = inr kd →
  kt ≠ kd.
Proof.
  intros Ht Hd. pose proof (resolve_nonempty _ _ _ _ Hd) as Hne.
  destruct (resolve_tmp_inv _ _ _ _ Hne Ht) as (cur & c & -> & _ & Hd').
  rewrite Hd in Hd'. injection Hd' as ->.
  destruct (enter_component_cases cur c) as [-> | [-> | ->]]; intros Heq.
  - apply (f_equal length) in Heq. simpl in Heq. lia.
  - apply (f_equal length) in Heq. destruct cur; simpl in Heq; lia.
  - injection Heq as Heq. revert Heq. apply string_app_ne_self.
    intros Hs. pose proof (tmp_suffix_length proc) as Hl. rewrite Hs in Hl. simpl in Hl. lia.
Qed.

(** ** What the calls do, as equations *)

Lemma replay_app evs evs' d : replay (evs ++ evs') d = replay evs' (replay evs d).
Proof. apply foldl_app. Qed.

Lemma record_nil w : record [] w = w.
Proof. destruct w. unfold record. simpl. now rewrite app_nil_r. Qed.

Lemma record_app evs evs' w : record (evs ++ evs') w = record evs' (record evs w).
Proof. unfold record. simpl. now rewrite replay_app, app_assoc. Qed.

Lemma record_cons ev evs w : record (ev :: evs) w = record evs (record [ev] w).
Proof. apply (record_app [ev]). Qed.

Lemma perform_run ev proc w : perform ev proc w = (Return tt, record [ev] w).
Proof. reflexivity. Qed.

Lemma copyfileobj_run fsrc fdst proc w :
  copyfileobj fsrc fdst proc w =
  (copy_outcome fsrc, record (copy_events (fo_key fdst) fsrc) w).
Proof.
  revert w. induction fsrc as [|[[|b buf]|code] rest IH]; intros w; simpl.
  - now rewrite record_nil.
  - now rewrite record_nil.
  - unfold bind, file_write. rewrite perform_run, IH.
    unfold copy_events, copy_outcome. simpl.
    now rewrite (record_cons (Write _ _) (map _ _)).
  - now rewrite record_nil.
Qed.

Lemma replay_writes d k content chunks :
  k ≠ [] →
  replay (map (Write k) chunks) (<[k := File content]> d)
  = <[k := File (content ++ concat chunks)]> d.
Proof.
  intros Hk. revert content. induction chunks as [|c chunks IH]; intros content; simpl.
  - now rewrite app_nil_r.
  - rewrite alter_insert_eq. simpl. rewrite IH. now rewrite app_assoc.
Qed.

(** The disk once a file has been created and a stream copied into it. *)
Lemma fs_record_create_copy k fsrc w :
  k ≠ [] →
  fs (record (Create k :: copy_events k fsrc) w) = <[k := File (stream_bytes fsrc)]> (fs w).
Proof.
  intros Hk. unfold record, copy_events. simpl. now rewrite replay_writes.
Qed.

Lemma write_body_run handle p proc w :
  write_body handle p proc w =
  match resolve (fs w) proc p with
  | inl code => (Raise (Exn OSError (Some code)), w)
  | inr k =>
      match lookup_node (fs w) k with
      | Some Dir => (Raise (Exn OSError (Some EISDIR)), w)
      | _ => (copy_outcome handle, record (Create k :: copy_events k handle) w)
      end
  end.
Proof.
  unfold write_body, with_, open_wb, open_file, resolve_path, bind, get_disk, get_process.
  simpl.
  destruct (resolve (fs w) proc p) as [code|k]; simpl; [reflexivity|].
  assert (∀ w0, copyfileobj handle (FileObject k) proc w0
                = (copy_outcome handle, record (copy_events k handle) w0)) as Hcopy
    by (intros w0; apply copyfileobj_run).
  destruct (lookup_node (fs w) k) as [[content|]|]; simpl; try reflexivity;
    rewrite Hcopy, (record_cons (Create k) (copy_events k handle));
    unfold copy_outcome, ret;
    destruct (stream_fault handle); reflexivity.
Qed.

Lemma discard_run p proc w :
  discard p proc w =
  (Return tt,
   match resolve (fs w) proc p with
   | inr k =>
       match lookup_node (fs w) k with
       | Some (File _) => record [Unlink k] w
       | _ => w
       end
   | inl _ => w
   end).
Proof.
  unfold discard, try_except, os_unlink, resolve_path, bind, get_disk, get_process. simpl.
  destruct (resolve (fs w) proc p) as [code|k]; simpl; [reflexivity|].
  destruct (lookup_node (fs w) k) as [[content|]|]; reflexivity.
Qed.

Lemma os_rename_run src dst proc w :
  os_rename src dst proc w =
  match resolve (fs w) proc src with
  | inl code => (Raise (Exn OSError (Some code)), w)
  | inr ks =>
      match resolve (fs w) proc dst with
      | inl code => (Raise (Exn OSError (Some code)), w)
      | inr kd =>
          match lookup_node (fs w) ks with
          | None => (Raise (Exn OSError (Some ENOENT)), w)
          | Some Dir => (Raise (Exn OSError (Some EIO)), w)
          | Some (File _) =>
              match lookup_node (fs w) kd with
              | Some Dir => (Raise (Exn OSError (Some EISDIR)), w)
              | _ => (Return tt, record [Rename ks kd] w)
              end
          end
      end
  end.
Proof.
  unfold os_rename, resolve_path, bind, get_disk, get_process. simpl.
  destruct (resolve (fs w) proc src) as [code|ks]; simpl; [reflexivity|].
  destruct (resolve (fs w) proc dst) as [code|kd]; simpl; [reflexivity|].
  destruct (lookup_node (fs w) ks) as [[content|]|]; try reflexivity.
  destruct (lookup_node (fs w) kd) as [[content'|]|]; reflexivity.
Qed.

(** ** The ways out of the write scope of [put] *)

Lemma with_AtomicReplace_run target handle proc w :
  with_ (AtomicReplace target) (write_body handle) proc w =
  let tmp := temporary_path target proc in
  match write_body handle tmp proc w with
  | (Return _, w1) =>
      match os_rename tmp target proc w1 with
      | (Return _, w2) => (Return tt, w2)
      | (Raise e, w2) => (Raise e, snd (discard tmp proc w2))
      end
  | (Raise e, w1) => (Raise e, snd (discard tmp proc w1))
  end.
Proof.
  unfold with_, AtomicReplace, bind, get_process, ret, try_except, raise. simpl.
  destruct (write_body handle (temporary_path target proc) proc w) as [[[]|e] w1]; simpl.
  - destruct (os_rename (temporary_path target proc) target proc w1) as [[[]|e] w2] eqn:Hren;
      simpl; [reflexivity|].
    assert (catches OSError e = true) as ->.
    { rewrite os_rename_run in Hren. repeat case_match; simplify_eq; reflexivity. }
    rewrite discard_run. reflexivity.
  - rewrite discard_run. reflexivity.
Qed.

Lemma write_body_opened handle p proc w k :
  resolve (fs w) proc p = inr k →
  lookup_node (fs w) k ≠ Some Dir →
  write_body handle p proc w = (copy_outcome handle, record (Create k :: copy_events k handle) w).
Proof.
  intros Hp Hk. rewrite write_body_run, Hp.
  destruct (lookup_node (fs w) k) as [[content|]|]; done.
Qed.

Lemma discard_file p proc w k content :
  resolve (fs w) proc p = inr k →
  lookup_node (fs w) k = Some (File content) →
  discard p proc w = (Return tt, record [Unlink k] w).
Proof. intros Hp Hk. now rewrite discard_run, Hp, Hk. Qed.

(** Creating a file and writing to it changes no directory, so every path
    resolves as before. *)
Lemma resolve_after_create k content d proc p :
  lookup_node d k ≠ Some Dir →
  key_of (resolve (<[k := File content]> d) proc p) = key_of (resolve d proc p).
Proof.
  intros Hk. apply resolve_same_dirs.
  - apply dirs_le_insert_file_inv. now apply not_dir_not_root in Hk.
  - now apply dirs_le_insert_file.
Qed.

Lemma key_of_inr r k : key_of r = Some k → r = inr k.
Proof. destruct r; simpl; congruence. Qed.

Lemma scope_cases target handle proc w r w' :
  with_ (AtomicReplace target) (write_body handle) proc w = (r, w') →
  scope_exit target handle proc w r w'.
Proof.
  rewrite with_AtomicReplace_run. cbv zeta.
  set (tmp := temporary_path target proc).
  destruct (resolve (fs w) proc tmp) as [code|kt] eqn:Htmp.
  { rewrite write_body_run, Htmp, discard_run, Htmp. simpl. intros [= <- <-].
    apply scope_not_opened. fold tmp. intros kt H. congruence. }
  destruct (decide (lookup_node (fs w) kt = Some Dir)) as [Hdir|Hkt].
  { rewrite write_body_run, Htmp, Hdir, discard_run, Htmp, Hdir. simpl. intros [= <- <-].
    apply scope_not_opened. fold tmp. intros kt' H. congruence. }
  rewrite (write_body_opened _ _ _ _ _ Htmp Hkt).
  pose proof (not_dir_not_root _ _ Hkt) as Hroot.
  set (w1 := record (Create kt :: copy_events kt handle) w).
  assert (fs w1 = <[kt := File (stream_bytes handle)]> (fs w)) as Hfs1
    by now apply fs_record_create_copy.
  assert (resolve (fs w1) proc tmp = inr kt) as Htmp1.
  { apply key_of_inr. rewrite Hfs1, resolve_after_create, Htmp; done. }
  assert (lookup_node (fs w1) kt = Some (File (stream_bytes handle))) as Hkt1.
  { rewrite Hfs1, lookup_node_insert, decide_True; done. }
  assert (record [Unlink kt] w1 = record (Create kt :: copy_events kt handle ++ [Unlink kt]) w)
    as Hunlink by (unfold w1; now rewrite <- record_app).
  unfold copy_outcome. destruct (stream_fault handle) as [code|] eqn:Hfault.
  { rewrite (discard_file _ _ _ _ _ Htmp1 Hkt1), Hunlink. simpl. intros [= <- <-].
    apply (scope_aborted _ _ _ _ kt); auto. }
  rewrite os_rename_run, Htmp1, Hkt1.
  destruct (resolve (fs w1) proc target) as [code|kd] eqn:Htarget1.
  { rewrite (discard_file _ _ _ _ _ Htmp1 Hkt1), Hunlink. simpl. intros [= <- <-].
    apply (scope_aborted _ _ _ _ kt); auto. right. split; [done|].
    intros kd Hkd. exfalso.
    pose proof (resolve_after_create kt (stream_bytes handle) (fs w) proc target Hkt) as Hkey.
    rewrite <- Hfs1, Htarget1, Hkd in Hkey. discriminate. }
  assert (resolve (fs w) proc target = inr kd) as Htarget.
  { apply key_of_inr.
    rewrite <- (resolve_after_create kt (stream_bytes handle)), <- Hfs1, Htarget1; done. }
  pose proof (tmp_key_ne_target _ _ _ _ _ Htmp Htarget) as Hne.
  assert (lookup_node (fs w1) kd = lookup_node (fs w) kd) as Hkd1.
  { rewrite Hfs1, lookup_node_insert, decide_False; done. }
  rewrite Hkd1.
  destruct (decide (lookup_node (fs w) kd = Some Dir)) as [Hdir|Hkd].
  { rewrite Hdir, (discard_file _ _ _ _ _ Htmp1 Hkt1), Hunlink. simpl. intros [= <- <-].
    apply (scope_aborted _ _ _ _ kt); auto. right. split; [done|].
    intros kd' Hkd'. congruence. }
  assert (record [Rename kt kd] w1 = record (Create kt :: copy_events kt handle ++ [Rename kt kd]) w)
    as Hrename by (unfold w1; now rewrite <- record_app).
  destruct (lookup_node (fs w) kd) as [[content|]|] eqn:Hlookup; try done;
    intros [= <- <-]; rewrite Hrename; apply scope_committed; auto; congruence.
Qed.

Lemma fs_record_snoc evs ev w :
  fs (record (evs ++ [ev]) w) = apply_event ev (fs (record evs w)).
Proof. unfold record. simpl. now rewrite replay_app. Qed.

Lemma fs_scope_aborted kt handle w :
  kt ≠ [] →
  fs (record (Create kt :: copy_events kt handle ++ [Unlink kt]) w) = delete kt (fs w).
Proof.
  intros Hk. rewrite app_comm_cons, fs_record_snoc, (fs_record_create_copy _ _ _ Hk).
  apply delete_insert_eq.
Qed.

Lemma fs_scope_committed kt kd handle w :
  kt ≠ [] →
  fs (record (Create kt :: copy_events kt handle ++ [Rename kt kd]) w)
  = <[kd := File (stream_bytes handle)]> (delete kt (fs w)).
Proof.
  intros Hk. rewrite app_comm_cons, fs_record_snoc, (fs_record_create_copy _ _ _ Hk).
  simpl. rewrite lookup_insert_eq. now rewrite delete_insert_eq.
Qed.

Lemma node_at_key w proc p :
  node_at w proc p =
  match key_of (resolve (fs w) proc p) with
  | Some k => lookup_node (fs w) k
  | None => None
  end.
Proof. unfold node_at. now destruct (resolve (fs w) proc p). Qed.

(** ** [makedirs] *)

Lemma adds_dirs_refl d : adds_dirs d d.
Proof. intros k. now left. Qed.

Lemma adds_dirs_trans d1 d2 d3 : adds_dirs d1 d2 → adds_dirs d2 d3 → adds_dirs d1 d3.
Proof.
  intros H12 H23 k. destruct (H12 k) as [E12|[N1 D2]], (H23 k) as [E23|[N2 D3]].
  - left. congruence.
  - right. split; congruence.
  - right. split; congruence.
  - congruence.
Qed.

Lemma adds_dirs_le d d' : adds_dirs d d' → dirs_le d d'.
Proof. intros H k Hk. destruct (H k) as [E|[N _]]; congruence. Qed.

Lemma adds_dirs_mkdir d k : lookup_node d k = None → adds_dirs d (<[k := Dir]> d).
Proof.
  intros Hk k'. rewrite lookup_node_insert by (intros ->; discriminate).
  case_decide; [subst; now right | now left].
Qed.

Lemma ensure_dir_run cur c proc w :
  ensure_dir cur c proc w =
  let next := enter_component cur c in
  match lookup_node (fs w) cur with
  | Some Dir =>
      match lookup_node (fs w) next with
      | Some Dir => (Return next, w)
      | Some (File _) => (Raise (Exn OSError (Some ENOTDIR)), w)
      | None =>
          if bool_decide (next = c :: cur)
          then (Return next, record [Mkdir next] w)
          else (Raise (Exn OSError (Some ENOENT)), w)
      end
  | Some (File _) => (Raise (Exn OSError (Some ENOTDIR)), w)
  | None => (Raise (Exn OSError (Some ENOENT)), w)
  end.
Proof.
  unfold ensure_dir, bind, get_disk. simpl.
  destruct (lookup_node (fs w) cur) as [[content|]|]; try reflexivity.
  destruct (lookup_node (fs w) (enter_component cur c)) as [[content|]|]; try reflexivity.
  now case_bool_decide.
Qed.

Lemma makedirs_from_spec comps cur proc w r w' :
  makedirs_from cur comps proc w = (r, w') →
  ∃ dirs,
    w' = record (map Mkdir dirs) w ∧
    adds_dirs (fs w) (fs w') ∧
    (r = Return tt → lookup_node (fs w) cur = Some Dir →
     ∃ k, walk (fs w') cur comps = inr k ∧ lookup_node (fs w') k = Some Dir).
Proof.
  revert cur w. induction comps as [|c rest IH]; intros cur w; simpl.
  { intros [= <- <-]. exists []. rewrite record_nil.
    split; [done|]. split; [apply adds_dirs_refl|]. intros _ Hcur. now exists cur. }
  assert (∀ code : errno, (Raise (Exn OSError (Some code)), w) = (r, w') →
    ∃ dirs, w' = record (map Mkdir dirs) w ∧ adds_dirs (fs w) (fs w') ∧
      (r = Return tt → lookup_node (fs w) cur = Some Dir →
       ∃ k, walk (fs w') cur (c :: rest) = inr k ∧ lookup_node (fs w') k = Some Dir))
    as Hraise.
  { intros code [= <- <-]. exists []. rewrite record_nil.
    split; [done|]. split; [apply adds_dirs_refl | done]. }
  unfold bind at 1. rewrite ensure_dir_run. cbv zeta.
  destruct (lookup_node (fs w) cur) as [[content|]|] eqn:Hcur; try apply Hraise.
  destruct (lookup_node (fs w) (enter_component cur c)) as [[content|]|] eqn:Hnext;
    try apply Hraise.
  - intros Hrun. destruct (IH _ _ Hrun) as (dirs & -> & Hadds & Hwalk).
    exists dirs. split; [done|]. split; [done|]. intros -> _.
    destruct (Hwalk eq_refl Hnext) as (k & Hk & Hdir). exists k. split; [|done].
    cbn [walk]. now rewrite (adds_dirs_le _ _ Hadds _ Hcur).
  - case_bool_decide as Hname; [|apply Hraise].
    intros Hrun.
    destruct (IH _ _ Hrun) as (dirs & -> & Hadds & Hwalk).
    set (w1 := record [Mkdir (enter_component cur c)] w) in *.
    assert (fs w1 = <[enter_component cur c := Dir]> (fs w)) as Hfs1 by reflexivity.
    assert (adds_dirs (fs w) (fs w1)) as Hmk by (rewrite Hfs1; now apply adds_dirs_mkdir).
    exists (enter_component cur c :: dirs). split; [|split].
    + simpl map. now rewrite (record_cons (Mkdir _) (map Mkdir dirs)).
    + eapply adds_dirs_trans; [exact Hmk | exact Hadds].
    + intros -> _. destruct (Hwalk eq_refl) as (k & Hk & Hdir).
      { rewrite Hfs1, lookup_node_insert, decide_True; [done..|]. rewrite Hname. done. }
      exists k. split; [|done]. cbn [walk].
      rewrite (adds_dirs_le _ _ (adds_dirs_trans _ _ _ Hmk Hadds) _ Hcur). exact Hk.
Qed.

Lemma split_sep_nonempty p : posixpath.split_sep p ≠ [].
Proof.
  destruct p as [|a p]; simpl; [done|].
  destruct (posixpath.is_sep a); [done|]. now destruct (posixpath.split_sep p).
Qed.

Lemma makedirs_spec p proc w r w' :
  makedirs p proc w = (r, w') →
  ∃ dirs,
    w' = record (map Mkdir dirs) w ∧
    adds_dirs (fs w) (fs w') ∧
    (r = Return tt →
     ∃ k, resolve (fs w') proc p = inr k ∧ lookup_node (fs w') k = Some Dir).
Proof.
  unfold makedirs, resolve. case_bool_decide as Hp.
  { intros [= <- <-]. exists []. rewrite record_nil.
    split; [done|]. split; [apply adds_dirs_refl | done]. }
  unfold bind at 1, get_process at 1. intros Hrun.
  destruct (makedirs_from_spec _ _ _ _ _ _ Hrun) as (dirs & Hw' & Hadds & Hwalk).
  exists dirs. split; [done|]. split; [done|]. intros ->. apply Hwalk; [done|].
  pose proof (split_sep_nonempty p) as Hne.
  destruct (posixpath.split_sep p) as [|c rest]; [done|].
  simpl in Hrun. unfold bind at 1 in Hrun. rewrite ensure_dir_run in Hrun.
  destruct (lookup_node (fs w) (start_dir proc p)) as [[content|]|]; done.
Qed.

Lemma walk_start_dir d cur comps k :
  walk d cur comps = inr k → lookup_node d k = Some Dir → lookup_node d cur = Some Dir.
Proof.
  destruct comps as [|c rest]; simpl.
  - now intros [= ->].
  - destruct (lookup_node d cur) as [[content|]|]; done.
Qed.

Lemma makedirs_from_exists comps cur proc w k :
  walk (fs w) cur comps = inr k →
  lookup_node (fs w) k = Some Dir →
  makedirs_from cur comps proc w = (Return tt, w).
Proof.
  revert cur. induction comps as [|c rest IH]; intros cur; simpl; [done|].
  intros Hwalk Hk. unfold bind at 1. rewrite ensure_dir_run. cbv zeta.
  destruct (lookup_node (fs w) cur) as [[content|]|]; try done.
  rewrite (walk_start_dir _ _ _ _ Hwalk Hk). now apply IH.
Qed.

(** Where the directory is there already, [makedirs] does nothing. *)
Lemma makedirs_exists p proc w k :
  resolve (fs w) proc p = inr k →
  lookup_node (fs w) k = Some Dir →
  makedirs p proc w = (Return tt, w).
Proof.
  unfold makedirs, resolve. case_bool_decide; [done|].
  unfold bind at 1, get_process at 1. apply makedirs_from_exists.
Qed.

(** ** [put], step by step *)

Lemma put_run self filename handle proc w :
  put self filename handle proc w =
  let target := posixpath.join (binary_cache (config self)) filename in
  match makedirs (posixpath.dirname target) proc
          (record [Log "Storing distribution archive in local cache: %s" [target]] w) with
  | (Return _, wa) =>
      match with_ (AtomicReplace target) (write_body handle) proc wa with
      | (Return _, w1) =>
          (Return tt,
           record [Log "Finished caching distribution archive in local cache." []] w1)
      | (Raise e, w1) => (Raise e, w1)
      end
  | (Raise e, wa) => (Raise e, wa)
  end.
Proof.
  unfold put, logger_debug. cbv zeta. unfold bind at 1. rewrite perform_run.
  unfold bind at 1.
  destruct (makedirs _ proc _) as [[[]|e] wa]; [|reflexivity].
  unfold bind at 1.
  destruct (with_ _ _ proc wa) as [[[]|e] w1]; reflexivity.
Qed.

Lemma resolve_after_delete k d proc p :
  lookup_node d k ≠ Some Dir →
  key_of (resolve (delete k d) proc p) = key_of (resolve d proc p).
Proof.
  intros Hk. apply resolve_same_dirs.
  - apply dirs_le_delete_inv. now apply not_dir_not_root in Hk.
  - now apply dirs_le_delete_file.
Qed.

(** A commit changes no directory either. *)
Lemma resolve_after_commit kt kd content d proc p :
  lookup_node d kt ≠ Some Dir →
  lookup_node d kd ≠ Some Dir →
  key_of (resolve (<[kd := File content]> (delete kt d)) proc p) = key_of (resolve d proc p).
Proof.
  intros Hkt Hkd. rewrite resolve_after_create; [now apply resolve_after_delete|].
  rewrite lookup_node_delete by now apply not_dir_not_root in Hkt.
  now case_decide.
Qed.

Lemma fs_record_log format args w : fs (record [Log format args] w) = fs w.
Proof. reflexivity. Qed.

(** What a [put] that returns has done. *)
Lemma put_returns_inv self filename handle proc w w' :
  let target := posixpath.join (binary_cache (config self)) filename in
  let tmp := temporary_path target proc in
  put self filename handle proc w = (Return tt, w') →
  ∃ dirs kt kd wa,
    wa = record (Log "Storing distribution archive in local cache: %s" [target]
                 :: map Mkdir dirs) w ∧
    adds_dirs (fs w) (fs wa) ∧
    (∃ kp, resolve (fs wa) proc (posixpath.dirname target) = inr kp ∧
           lookup_node (fs wa) kp = Some Dir) ∧
    resolve (fs wa) proc tmp = inr kt ∧
    lookup_node (fs wa) kt ≠ Some Dir ∧
    stream_fault handle = None ∧
    resolve (fs wa) proc target = inr kd ∧
    lookup_node (fs wa) kd ≠ Some Dir ∧
    kt ≠ kd ∧
    w' = record (Create kt :: copy_events kt handle ++
                 [Rename kt kd;
                  Log "Finished caching distribution archive in local cache." []]) wa ∧
    fs w' = <[kd := File (stream_bytes handle)]> (delete kt (fs wa)).
Proof.
  intros target tmp. rewrite put_run. cbv zeta. fold target.
  destruct (makedirs _ proc _) as [[[]|e] wa] eqn:Hmk; [|done].
  destruct (with_ _ _ proc wa) as [[[]|e] w1] eqn:Hscope; [|done].
  intros [= <-].
  destruct (makedirs_spec _ _ _ _ _ Hmk) as (dirs & Hwa & Hadds & Hdir).
  apply scope_cases in Hscope. inversion Hscope as [| |kt kd Hkt Hnd Hfault Hkd Hndd]; subst w1.
  exists dirs, kt, kd, wa.
  split. { rewrite Hwa. now rewrite (record_cons (Log _ _) (map Mkdir dirs)). }
  split. { exact Hadds. }
  split. { now apply Hdir. }
  do 5 (split; [done|]).
  split. { eapply tmp_key_ne_target; eassumption. }
  split.
  - rewrite <- record_app. f_equal. rewrite <- app_comm_cons, <- app_assoc. reflexivity.
  - rewrite fs_record_log. apply fs_scope_committed. now apply not_dir_not_root in Hnd.
Qed.

Lemma put_returns_target self filename handle proc w w' :
  let target := posixpath.join (binary_cache (config self)) filename in
  put self filename handle proc w = (Return tt, w') →
  node_at w' proc target = Some (File (stream_bytes handle)).
Proof.
  intros target Hput.
  destruct (put_returns_inv _ _ _ _ _ _ Hput)
    as (dirs & kt & kd & wa & _ & _ & _ & Hkt & Hnd & _ & Hkd & Hndd & _ & _ & Hfs).
  fold target in Hkt, Hkd.
  rewrite node_at_key, Hfs, resolve_after_commit, Hkd by done. simpl.
  rewrite lookup_node_insert by now apply not_dir_not_root in Hndd.
  now rewrite decide_True.
Qed.

Lemma get_hit self filename proc w content :
  let pathname := posixpath.join (binary_cache (config self)) filename in
  node_at w proc pathname = Some (File content) →
  get self filename proc w
  = (Return (Some pathname),
     record [Log "Distribution archive exists in local cache (%s)." [pathname]] w).
Proof. intros pathname Hfile. rewrite get_run. cbv zeta. fold pathname. now rewrite Hfile. Qed.

Lemma get_miss self filename proc w :
  let pathname := posixpath.join (binary_cache (config self)) filename in
  (∀ content, node_at w proc pathname ≠ Some (File content)) →
  get self filename proc w
  = (Return None,
     record [Log "Distribution archive doesn't exist in local cache (%s)." [pathname]] w).
Proof.
  intros pathname Hfile. rewrite get_run. cbv zeta. fold pathname.
  destruct (node_at w proc pathname) as [[content|]|]; [|done..]. now destruct (Hfile content).
Qed.

(** ** The claims *)

(** C1.  When [put] has reached its write scope and the scope exits with an
    error, whatever had been written to the temporary file by then, [put]
    raises that error, no temporary file is left (the temporary path leads
    to nothing, unless it was a directory before the scope and nothing was
    opened), and the target path leads to what it led to when the scope was
    entered: nothing, or the node with its complete prior content. *)
Theorem put_scope_error_keeps_target self filename handle proc w wa e w' :
  let target := posixpath.join (binary_cache (config self)) filename in
  let tmp := temporary_path target proc in
  makedirs (posixpath.dirname target) proc
    (record [Log "Storing distribution archive in local cache: %s" [target]] w)
  = (Return tt, wa) →
  with_ (AtomicReplace target) (write_body handle) proc wa = (Raise e, w') →
  put self filename handle proc w = (Raise e, w') ∧
  (∀ content, node_at w' proc tmp ≠ Some (File content)) ∧
  (node_at wa proc tmp ≠ Some Dir → node_at w' proc tmp = None) ∧
  node_at w' proc target = node_at wa proc target.
Proof.
  intros target tmp Hmk Hscope.
  split. { rewrite put_run. cbv zeta. fold target. now rewrite Hmk, Hscope. }
  apply scope_cases in Hscope.
  inversion Hscope as [code Hclosed|kt code Hkt Hnd Hcause|]; subst.
  - fold tmp in Hclosed. unfold node_at.
    destruct (resolve (fs w') proc tmp) as [c|kt] eqn:Htmp.
    + repeat split; done.
    + rewrite (Hclosed kt eq_refl). repeat split; done.
  - fold tmp in Hkt.
    pose proof (not_dir_not_root _ _ Hnd) as Hroot.
    assert (node_at (record (Create kt :: copy_events kt handle ++ [Unlink kt]) wa) proc tmp
            = None) as Hgone.
    { rewrite node_at_key, fs_scope_aborted, resolve_after_delete, Hkt by done. simpl.
      rewrite lookup_node_delete, decide_True; done. }
    split; [|split].
    + intros content. now rewrite Hgone.
    + intros _. exact Hgone.
    + rewrite !node_at_key, fs_scope_aborted, resolve_after_delete by done.
      destruct (resolve (fs wa) proc target) as [c|kd] eqn:Htarget; simpl; [done|].
      rewrite lookup_node_delete by done. rewrite decide_False; [done|].
      eapply tmp_key_ne_target; eassumption.
Qed.

(** C2.  After a [put] that returned, the target path leads to a regular
    file whose content is the bytes of the stream, and [get] of the same
    filename returns that path. *)
Theorem put_then_get self filename handle proc w w' :
  let target := posixpath.join (binary_cache (config self)) filename in
  put self filename handle proc w = (Return tt, w') →
  node_at w' proc target = Some (File (stream_bytes handle)) ∧
  get self filename proc w'
  = (Return (Some target),
     record [Log "Distribution archive exists in local cache (%s)." [target]] w').
Proof.
  intros target Hput. pose proof (put_returns_target _ _ _ _ _ _ Hput) as Hnode.
  split; [exact Hnode|]. eapply get_hit. exact Hnode.
Qed.

(** C4.  A [put] that returns has performed, in this order: the creation of
    the directories that were missing, after which the parent directory of
    the target exists; the creation of the temporary file; one write for
    each buffer read from the stream, up to its end; the rename of the
    temporary file onto the target.  The target then holds exactly the bytes
    read. *)
Theorem put_order self filename handle proc w w' :
  let target := posixpath.join (binary_cache (config self)) filename in
  let tmp := temporary_path target proc in
  put self filename handle proc w = (Return tt, w') →
  ∃ dirs kt kd,
    let wa := record (Log "Storing distribution archive in local cache: %s" [target]
                      :: map Mkdir dirs) w in
    trace w' =
      trace w ++
      Log "Storing distribution archive in local cache: %s" [target]
      :: map Mkdir dirs ++
      Create kt :: map (Write kt) (chunks_read handle) ++
      [Rename kt kd; Log "Finished caching distribution archive in local cache." []] ∧
    node_at wa proc (posixpath.dirname target) = Some Dir ∧
    resolve (fs wa) proc tmp = inr kt ∧
    resolve (fs wa) proc target = inr kd ∧
    stream_fault handle = None ∧
    node_at w' proc target = Some (File (concat (chunks_read handle))).
Proof.
  intros target tmp Hput.
  pose proof (put_returns_target _ _ _ _ _ _ Hput) as Hnode.
  destruct (put_returns_inv _ _ _ _ _ _ Hput)
    as (dirs & kt & kd & wa & Hwa & _ & (kp & Hkp & Hdir) & Hkt & _ & Hfault & Hkd & _ & _ & Hw' & _).
  exists dirs, kt, kd. cbv zeta. subst target tmp. rewrite <- Hwa.
  split. { rewrite Hw', Hwa. unfold record, copy_events. simpl. now rewrite <- app_assoc. }
  split. { unfold node_at. now rewrite Hkp. }
  done.
Qed.

(** C6.  [get] leaves the disk as it found it: all it does is tell the
    logger one message. *)
Theorem get_non_mutating self filename proc w :
  fs (snd (get self filename proc w)) = fs w ∧
  ∃ format args, snd (get self filename proc w) = record [Log format args] w.
Proof.
  rewrite get_run. cbv zeta.
  destruct (node_at w proc _) as [[content|]|]; simpl; (split; [reflexivity | eauto]).
Qed.

(** C7.  [CacheBackendDisabledError] derives from [CacheBackendError]: a
    handler for the base class handles every disabled-backend failure, the
    two classes differ, and a handler for the derived class handles the
    disabled-backend failures only, not a plain [CacheBackendError]. *)
Theorem disabled_error_is_backend_error :
  base CacheBackendDisabledError = Some CacheBackendError ∧
  issubclass CacheBackendDisabledError CacheBackendError = true ∧
  (∀ e, implb (catches CacheBackendDisabledError e) (catches CacheBackendError e) = true) ∧
  CacheBackendDisabledError ≠ CacheBackendError ∧
  issubclass CacheBackendError CacheBackendDisabledError = false ∧
  (∀ code, catches CacheBackendDisabledError (Exn CacheBackendDisabledError code) = true) ∧
  (∀ code, catches CacheBackendDisabledError (Exn CacheBackendError code) = false).
Proof.
  repeat split; try done.
  intros [c code]. destruct c; reflexivity.
Qed.

(** C9.  Where the path of a filename leads to a directory, [get] returns
    [None], as it does for anything that is not a regular file. *)
Theorem get_directory_is_miss self filename proc w :
  let pathname := posixpath.join (binary_cache (config self)) filename in
  node_at w proc pathname = Some Dir →
  get self filename proc w
  = (Return None,
     record [Log "Distribution archive doesn't exist in local cache (%s)." [pathname]] w).
Proof. intros pathname Hdir. apply get_miss. fold pathname. now rewrite Hdir. Qed.

(** ** The exceptions of the backend *)

Lemma makedirs_from_raises comps cur proc w e w' :
  makedirs_from cur comps proc w = (Raise e, w') → exc_type e = OSError.
Proof.
  revert cur w. induction comps as [|c rest IH]; intros cur w; simpl; [done|].
  unfold bind at 1. rewrite ensure_dir_run. cbv zeta.
  destruct (lookup_node (fs w) cur) as [[content|]|]; try (now intros [= <- <-]).
  destruct (lookup_node (fs w) (enter_component cur c)) as [[content|]|];
    try (now intros [= <- <-]).
  - apply IH.
  - case_bool_decide; [|now intros [= <- <-]]. apply IH.
Qed.

Lemma makedirs_raises p proc w e w' :
  makedirs p proc w = (Raise e, w') → exc_type e = OSError.
Proof.
  unfold makedirs. case_bool_decide; [now intros [= <- <-]|].
  unfold bind at 1, get_process at 1. apply makedirs_from_raises.
Qed.

(** Whatever [put] raises is an [OSError]. *)
Lemma put_raises self filename handle proc w e w' :
  put self filename handle proc w = (Raise e, w') → exc_type e = OSError.
Proof.
  rewrite put_run. cbv zeta.
  destruct (makedirs _ proc _) as [[[]|e0] wa] eqn:Hmk.
  - destruct (with_ _ _ proc wa) as [[[]|e1] w1] eqn:Hscope; [done|].
    intros [= <- <-]. apply scope_cases in Hscope. now inversion Hscope.
  - intros [= <- <-]. now apply makedirs_raises in Hmk.
Qed.

(** C10.  Neither [get] nor [put] of the local backend raises
    [CacheBackendDisabledError], whatever they are given: [get] raises
    nothing, and [put] raises the [OSError] of a file system call or of the
    stream only. *)
Theorem local_backend_never_disabled self filename handle proc w :
  raises_disabled (fst (get self filename proc w)) = false ∧
  raises_disabled (fst (put self filename handle proc w)) = false.
Proof.
  split.
  - rewrite get_run. cbv zeta. now destruct (node_at w proc _) as [[content|]|].
  - destruct (put self filename handle proc w) as [[[]|e] w'] eqn:Hput; [done|].
    apply put_raises in Hput. simpl. unfold catches. now rewrite Hput.
Qed.

(** ** Files that were never written *)

Lemma apply_event_not_file ev d k :
  writes_file k ev = false →
  is_file (d !! k) = false →
  is_file (apply_event ev d !! k) = false.
Proof.
  destruct ev as [format args|k'|k'|k' data|src dst|k']; simpl; intros Hev Hk.
  - exact Hk.
  - rewrite lookup_insert. now case_decide.
  - apply bool_decide_eq_false in Hev. now rewrite lookup_insert_ne.
  - rewrite lookup_alter. case_decide; [subst|done].
    destruct (d !! k) as [[content|]|]; done.
  - apply bool_decide_eq_false in Hev.
    destruct (d !! src) as [n|]; [|done].
    rewrite lookup_insert_ne, lookup_delete by done. now case_decide.
  - rewrite lookup_delete. now case_decide.
Qed.

Lemma replay_not_file evs d k :
  forallb (fun ev => negb (writes_file k ev)) evs = true →
  is_file (d !! k) = false →
  is_file (replay evs d !! k) = false.
Proof.
  revert d. induction evs as [|ev evs IH]; intros d; simpl; [done|].
  intros [Hev Hevs]%andb_true_iff Hk. apply IH; [done|].
  apply apply_event_not_file; [|done]. now apply negb_true_iff.
Qed.

Lemma is_file_lookup_node d k : is_file (lookup_node d k) = true → is_file (d !! k) = true.
Proof. destruct k; simpl; done. Qed.

(** C3.  [get] never raises; and for a filename that was never written (the
    history of the world has put no regular file where its path leads, and
    none was there to begin with) it returns [None]. *)
Theorem get_clean_miss self filename proc disk0 w :
  let pathname := posixpath.join (binary_cache (config self)) filename in
  fs w = replay (trace w) disk0 →
  never_written disk0 w proc pathname = true →
  get self filename proc w
  = (Return None,
     record [Log "Distribution archive doesn't exist in local cache (%s)." [pathname]] w) ∧
  ∀ filename' proc' w0, ∃ r, fst (get self filename' proc' w0) = Return r.
Proof.
  intros pathname Hhistory Hnever. split.
  - apply get_miss. fold pathname. intros content Hnode.
    unfold never_written in Hnever. unfold node_at in Hnode.
    destruct (resolve (fs w) proc pathname) as [code|k]; [done|].
    apply andb_true_iff in Hnever as [Hstart Hevs].
    assert (is_file (fs w !! k) = true) as Hfile
      by (apply is_file_lookup_node; now rewrite Hnode).
    rewrite Hhistory, replay_not_file in Hfile; [done..|].
    apply negb_true_iff in Hstart.
    destruct (is_file (disk0 !! k)) eqn:Hk; [|done].
    destruct k; simpl in *; [done | congruence].
  - intros filename' proc' w0. rewrite get_run. cbv zeta.
    destruct (node_at w0 proc' _) as [[content|]|]; eauto.
Qed.

(** ** Histories *)

Lemma history_record evs disk0 w :
  fs w = replay (trace w) disk0 →
  fs (record evs w) = replay (trace (record evs w)) disk0.
Proof. intros H. unfold record. simpl. now rewrite replay_app, H. Qed.

Lemma scope_exit_records target handle proc w r w' :
  scope_exit target handle proc w r w' → ∃ evs, w' = record evs w.
Proof.
  intros [code _|kt code _ _ _|kt kd _ _ _ _ _]; [exists []; now rewrite record_nil|eauto..].
Qed.

(** All [put] does to a world is perform events. *)
Lemma put_records self filename handle proc w r w' :
  put self filename handle proc w = (r, w') → ∃ evs, w' = record evs w.
Proof.
  rewrite put_run. cbv zeta.
  destruct (makedirs _ proc _) as [[[]|e0] wa] eqn:Hmk;
    destruct (makedirs_spec _ _ _ _ _ Hmk) as (dirs & -> & _).
  - destruct (with_ _ _ proc _) as [[[]|e1] w1] eqn:Hscope;
      apply scope_cases, scope_exit_records in Hscope as [evs ->]; intros [= <- <-];
      rewrite <- !record_app; eauto.
  - intros [= <- <-]. rewrite <- !record_app; eauto.
Qed.

Lemma put_history self filename handle proc disk0 w r w' :
  fs w = replay (trace w) disk0 →
  put self filename handle proc w = (r, w') →
  fs w' = replay (trace w') disk0.
Proof.
  intros H Hput. apply put_records in Hput as [evs ->]. now apply history_record.
Qed.

(** ** Retrying a [put] *)

Lemma dirs_le_commit kt kd content d :
  lookup_node d kt ≠ Some Dir →
  lookup_node d kd ≠ Some Dir →
  dirs_le d (<[kd := File content]> (delete kt d)).
Proof.
  intros Hkt Hkd. apply (dirs_le_trans _ (delete kt d)); [now apply dirs_le_delete_file|].
  apply dirs_le_insert_file.
  rewrite lookup_node_delete by now apply not_dir_not_root in Hkt. now case_decide.
Qed.

(** After a [put] that returned, the temporary path leads to nothing. *)
Lemma put_returns_tmp_gone self filename handle proc w w' :
  let target := posixpath.join (binary_cache (config self)) filename in
  put self filename handle proc w = (Return tt, w') →
  node_at w' proc (temporary_path target proc) = None.
Proof.
  intros target Hput.
  destruct (put_returns_inv _ _ _ _ _ _ Hput)
    as (dirs & kt & kd & wa & _ & _ & _ & Hkt & Hnd & _ & Hkd & Hndd & Hne & _ & Hfs).
  fold target in Hkt.
  rewrite node_at_key, Hfs, resolve_after_commit, Hkt by done. simpl.
  rewrite lookup_node_insert by now apply not_dir_not_root in Hndd.
  rewrite decide_False by done.
  rewrite lookup_node_delete by now apply not_dir_not_root in Hnd.
  now rewrite decide_True.
Qed.

(** After a [put] that returned, the only regular file that was not there
    before is the one the target path leads to. *)
Lemma put_returns_files self filename handle proc w w' k content :
  let target := posixpath.join (binary_cache (config self)) filename in
  put self filename handle proc w = (Return tt, w') →
  lookup_node (fs w') k = Some (File content) →
  resolve (fs w') proc target = inr k ∨ lookup_node (fs w) k = Some (File content).
Proof.
  intros target Hput.
  destruct (put_returns_inv _ _ _ _ _ _ Hput)
    as (dirs & kt & kd & wa & _ & Hadds & _ & Hkt & Hnd & _ & Hkd & Hndd & Hne & _ & Hfs).
  fold target in Hkd.
  assert (resolve (fs w') proc target = inr kd) as Hkd'.
  { apply key_of_inr. rewrite Hfs, resolve_after_commit, Hkd; done. }
  intros Hfile.
  rewrite Hfs, lookup_node_insert in Hfile by now apply not_dir_not_root in Hndd.
  case_decide as Hk; [subst; now left|].
  rewrite lookup_node_delete in Hfile by now apply not_dir_not_root in Hnd.
  case_decide; [done|]. right.
  destruct (Hadds k) as [Heq|[_ Hdir]]; congruence.
Qed.

(** A [put] that returned can be repeated, with any stream that reads to
    its end. *)
Lemma put_again_returns self filename handle handle' proc w w1 :
  put self filename handle proc w = (Return tt, w1) →
  stream_fault handle' = None →
  ∃ w2, put self filename handle' proc w1 = (Return tt, w2).
Proof.
  intros Hput Hfault.
  destruct (put_returns_inv _ _ _ _ _ _ Hput)
    as (dirs & kt & kd & wa & _ & _ & (kp & Hkp & Hdir) & Hkt & Hnd & _ & Hkd & Hndd & Hne & _ & Hfs).
  set (target := posixpath.join (binary_cache (config self)) filename) in *.
  pose proof (dirs_le_commit kt kd (stream_bytes handle) (fs wa) Hnd Hndd) as Hle.
  rewrite <- Hfs in Hle.
  pose proof (not_dir_not_root _ _ Hnd) as Hroot.
  pose proof (not_dir_not_root _ _ Hndd) as Hrootd.
  assert (lookup_node (fs w1) kt = None) as Hkt1.
  { rewrite Hfs, lookup_node_insert, decide_False by done.
    now rewrite lookup_node_delete, decide_True. }
  assert (lookup_node (fs w1) kd = Some (File (stream_bytes handle))) as Hkd1.
  { now rewrite Hfs, lookup_node_insert, decide_True. }
  rewrite put_run. cbv zeta. fold target.
  set (wl := record [Log "Storing distribution archive in local cache: %s" [target]] w1).
  assert (fs wl = fs w1) as Hwl by reflexivity.
  rewrite (makedirs_exists _ proc wl kp).
  2: { rewrite Hwl. eapply resolve_mono; eassumption. }
  2: { rewrite Hwl. now apply Hle. }
  destruct (with_ _ _ proc wl) as [r w2] eqn:Hscope.
  apply scope_cases in Hscope.
  assert (resolve (fs wl) proc (temporary_path target proc) = inr kt) as Hkt'
    by (rewrite Hwl; eapply resolve_mono; eassumption).
  assert (resolve (fs wl) proc target = inr kd) as Hkd'
    by (rewrite Hwl; eapply resolve_mono; eassumption).
  inversion Hscope as [code Hclosed|kt' code Hkt'' Hnd' Hcause|kt' kd' _ _ _ _ _]; subst.
  - specialize (Hclosed kt Hkt'). rewrite Hwl in Hclosed. congruence.
  - destruct Hcause as [Hsome|[_ Hdirs]]; [congruence|].
    specialize (Hdirs kd Hkd'). rewrite Hwl in Hdirs. congruence.
  - eauto.
Qed.

(** C5.  A [put] that returned can be made again with the same bytes: it
    returns again; after each of the two, [get] returns the target path and
    the path leads to a regular file holding the bytes; after each, the
    temporary path leads to nothing, and the only regular file on the disk
    that was not there before the first [put] is the target. *)
Theorem put_twice self filename handle handle' proc w w1 :
  let target := posixpath.join (binary_cache (config self)) filename in
  let exists_ := Log "Distribution archive exists in local cache (%s)." [target] in
  put self filename handle proc w = (Return tt, w1) →
  stream_fault handle' = None →
  stream_bytes handle' = stream_bytes handle →
  ∃ w2,
    put self filename handle' proc w1 = (Return tt, w2) ∧
    get self filename proc w1 = (Return (Some target), record [exists_] w1) ∧
    node_at w1 proc target = Some (File (stream_bytes handle)) ∧
    get self filename proc w2 = (Return (Some target), record [exists_] w2) ∧
    node_at w2 proc target = Some (File (stream_bytes handle)) ∧
    node_at w1 proc (temporary_path target proc) = None ∧
    node_at w2 proc (temporary_path target proc) = None ∧
    ∀ k content,
      lookup_node (fs w2) k = Some (File content) →
      resolve (fs w2) proc target = inr k ∨ lookup_node (fs w) k = Some (File content).
Proof.
  intros target exists_ Hput Hfault Hbytes.
  destruct (put_again_returns _ _ _ _ _ _ _ Hput Hfault) as [w2 Hput2].
  pose proof (put_returns_target _ _ _ _ _ _ Hput) as Hnode1.
  pose proof (put_returns_target _ _ _ _ _ _ Hput2) as Hnode2.
  rewrite Hbytes in Hnode2.
  exists w2. split; [exact Hput2|].
  split. { eapply get_hit. exact Hnode1. }
  split. { exact Hnode1. }
  split. { eapply get_hit. exact Hnode2. }
  split. { exact Hnode2. }
  split. { now apply (put_returns_tmp_gone _ _ _ _ _ _ Hput). }
  split. { now apply (put_returns_tmp_gone _ _ _ _ _ _ Hput2). }
  intros k content Hfile.
  destruct (put_returns_files _ _ _ _ _ _ _ _ Hput2 Hfile) as [Htarget|Hfile1]; [now left|].
  destruct (put_returns_files _ _ _ _ _ _ _ _ Hput Hfile1) as [Htarget|Hfile0]; [|now right].
  left. fold target in Htarget.
  destruct (put_returns_inv _ _ _ _ _ _ Hput2)
    as (dirs & kt & kd & wa & _ & Hadds & _ & _ & Hnd & _ & Hkd & Hndd & _ & _ & Hfs).
  fold target in Hkd. apply key_of_inr.
  rewrite Hfs, resolve_after_commit by done.
  erewrite resolve_mono; [reflexivity| |exact Htarget].
  apply adds_dirs_le. exact Hadds.
Qed.

(** ** The machine, run on its own *)

Lemma run_steps_app self filename handle n m st proc w :
  run_steps self filename handle (n + m) st proc w =
  let '(st', w') := run_steps self filename handle n st proc w in
  run_steps self filename handle m st' proc w'.
Proof.
  revert st w. induction n as [|n IH]; intros st w; simpl; [reflexivity|].
  destruct (put_step self filename handle st proc w) as [st' w']. apply IH.
Qed.

Lemma run_steps_done self filename handle n r proc w :
  run_steps self filename handle n (PDone r) proc w = (PDone r, w).
Proof. induction n as [|n IH]; simpl; [reflexivity | exact IH]. Qed.

Lemma run_steps_makedirs self filename handle comps cur proc w :
  run_steps self filename handle (S (length comps)) (PMakedirs cur comps) proc w =
  match makedirs_from cur comps proc w with
  | (Return _, w') => (POpen, w')
  | (Raise e, w') => (PDone (Raise e), w')
  end.
Proof.
  revert cur w. induction comps as [|c rest IH]; intros cur w; [reflexivity|].
  change (run_steps self filename handle (S (length (c :: rest))) (PMakedirs cur (c :: rest)) proc w)
    with (let '(st', w') := put_step self filename handle (PMakedirs cur (c :: rest)) proc w in
          run_steps self filename handle (S (length rest)) st' proc w').
  cbn [put_step makedirs_from]. unfold bind at 1.
  destruct (ensure_dir cur c proc w) as [[next|e] w1].
  - apply IH.
  - apply run_steps_done.
Qed.

Lemma run_steps_copy self filename handle rest f proc w :
  run_steps self filename handle (S (length (chunks_read rest))) (PCopy f rest) proc w =
  (match stream_fault rest with
   | Some code => PDiscard (Exn OSError (Some code))
   | None => PCommit
   end,
   record (copy_events (fo_key f) rest) w).
Proof.
  revert w. induction rest as [|[[|b buf]|code] rest IH]; intros w.
  - simpl. now rewrite record_nil.
  - simpl. now rewrite record_nil.
  - change (run_steps self filename handle (S (length (chunks_read (Bytes (b :: buf) :: rest))))
              (PCopy f (Bytes (b :: buf) :: rest)) proc w)
      with (run_steps self filename handle (S (length (chunks_read rest))) (PCopy f rest) proc
              (record [Write (fo_key f) (b :: buf)] w)).
    rewrite IH. unfold copy_events. simpl.
    now rewrite (record_cons (Write _ _) (map _ _)).
  - simpl. now rewrite record_nil.
Qed.

Lemma open_file_run p proc w :
  open_file p proc w =
  match resolve (fs w) proc p with
  | inl code => (Raise (Exn OSError (Some code)), w)
  | inr k =>
      match lookup_node (fs w) k with
      | Some Dir => (Raise (Exn OSError (Some EISDIR)), w)
      | _ => (Return (FileObject k), record [Create k] w)
      end
  end.
Proof.
  unfold open_file, resolve_path, bind, get_disk, get_process. simpl.
  destruct (resolve (fs w) proc p) as [code|k]; simpl; [reflexivity|].
  destruct (lookup_node (fs w) k) as [[content|]|]; reflexivity.
Qed.

Lemma run_steps_S self filename handle n st proc w :
  run_steps self filename handle (S n) st proc w =
  let '(st', w') := put_step self filename handle st proc w in
  run_steps self filename handle n st' proc w'.
Proof. reflexivity. Qed.

Lemma run_steps_scope self filename handle proc wa :
  let target := posixpath.join (binary_cache (config self)) filename in
  run_steps self filename handle (4 + length (chunks_read handle)) POpen proc wa =
  match with_ (AtomicReplace target) (write_body handle) proc wa with
  | (Return _, w1) =>
      (PDone (Return tt),
       record [Log "Finished caching distribution archive in local cache." []] w1)
  | (Raise e, w1) => (PDone (Raise e), w1)
  end.
Proof.
  intros target. rewrite with_AtomicReplace_run. cbv zeta. rewrite write_body_run.
  fold target. set (tmp := temporary_path target proc).
  change (4 + length (chunks_read handle)) with (S (3 + length (chunks_read handle))).
  rewrite run_steps_S. cbn [put_step]. fold target tmp. rewrite open_file_run.
  destruct (resolve (fs wa) proc tmp) as [code|kt] eqn:Htmp.
  { simpl. fold target tmp. now rewrite run_steps_done. }
  assert (∀ w1,
    run_steps self filename handle (3 + length (chunks_read handle))
      (PCopy (FileObject kt) handle) proc (record [Create kt] wa) = w1 →
    w1 = match (let (o, w2) := (copy_outcome handle, record (Create kt :: copy_events kt handle) wa) in
                match o with
                | Return _ =>
                    match os_rename tmp target proc w2 with
                    | (Return _, w3) => (Return tt, w3)
                    | (Raise e, w3) => (Raise e, snd (discard tmp proc w3))
                    end
                | Raise e => (Raise e, snd (discard tmp proc w2))
                end) with
         | (Return _, w2) =>
             (PDone (Return tt),
              record [Log "Finished caching distribution archive in local cache." []] w2)
         | (Raise e, w2) => (PDone (Raise e), w2)
         end) as Hcopy.
  { intros w1 <-.
    replace (3 + length (chunks_read handle)) with (S (length (chunks_read handle)) + 2) by lia.
    rewrite run_steps_app, run_steps_copy. simpl fo_key.
    rewrite <- (record_cons (Create kt) (copy_events kt handle)).
    unfold copy_outcome. destruct (stream_fault handle) as [code|].
    - simpl. fold target tmp. reflexivity.
    - simpl. fold target tmp.
      destruct (os_rename tmp target proc _) as [[[]|e] w3]; reflexivity. }
  destruct (lookup_node (fs wa) kt) as [[content|]|] eqn:Hkt.
  - now apply Hcopy.
  - simpl. fold target tmp. now rewrite run_steps_done.
  - now apply Hcopy.
Qed.

Lemma makedirs_nonempty p proc w :
  p ≠ "" →
  makedirs p proc w = makedirs_from (start_dir proc p) (posixpath.split_sep p) proc w.
Proof. intros Hp. unfold makedirs. now rewrite bool_decide_eq_false_2. Qed.

Lemma makedirs_empty proc w :
  makedirs "" proc w = (Raise (Exn OSError (Some ENOENT)), w).
Proof. reflexivity. Qed.

(** Run on its own, the machine does what [put] does. *)
Lemma run_steps_put self filename handle proc w r w' :
  let target := posixpath.join (binary_cache (config self)) filename in
  put self filename handle proc w = (r, w') →
  run_steps self filename handle
    (6 + length (posixpath.split_sep (posixpath.dirname target)) + length (chunks_read handle))
    PStart proc w
  = (PDone r, w').
Proof.
  intros target. rewrite put_run. cbv zeta. fold target.
  set (comps := posixpath.split_sep (posixpath.dirname target)).
  replace (6 + length comps + length (chunks_read handle))
    with (S (S (length comps) + (4 + length (chunks_read handle)))) by lia.
  rewrite run_steps_S. cbn [put_step]. fold target. unfold logger_debug. rewrite perform_run.
  cbn [snd].
  case_bool_decide as Hdir.
  { rewrite Hdir, makedirs_empty. intros [= <- <-]. now rewrite run_steps_done. }
  rewrite (makedirs_nonempty _ _ _ Hdir). fold comps.
  rewrite run_steps_app, run_steps_makedirs. fold comps.
  destruct (makedirs_from _ comps proc _) as [[[]|e] wa].
  - rewrite run_steps_scope. fold target.
    destruct (with_ _ _ proc wa) as [[[]|e] w1]; now intros [= <- <-].
  - intros [= <- <-]. now rewrite run_steps_done.
Qed.

(** ** Two processes *)

Lemma start_dir_tmp proc target :
  start_dir proc (temporary_path target proc) = start_dir proc target.
Proof. rewrite temporary_path_suffix. now destruct target. Qed.

Lemma temporary_path_nonempty proc target : temporary_path target proc ≠ "".
Proof. rewrite temporary_path_suffix. now destruct target. Qed.

(** Where the temporary path of a target resolves. *)
Lemma resolve_tmp_shape d proc target kt :
  resolve d proc (temporary_path target proc) = inr kt →
  ∃ init c cur,
    posixpath.split_sep target = init ++ [c] ∧
    walk d (start_dir proc target) init = inr cur ∧
    kt = (c +:+ tmp_suffix proc) :: cur.
Proof.
  unfold resolve. rewrite bool_decide_eq_false_2 by apply temporary_path_nonempty.
  rewrite start_dir_tmp, temporary_path_suffix.
  destruct (split_sep_suffix target (tmp_suffix proc) (tmp_suffix_no_sep proc))
    as (init & c & Hs & ->).
  rewrite walk_app.
  destruct (walk d (start_dir proc target) init) as [code|cur] eqn:Hinit; [done|].
  simpl. destruct (lookup_node d cur) as [[?|]|]; try done.
  rewrite enter_component_suffix. intros [= <-]. now exists init, c, cur.
Qed.

Lemma start_dir_cwd p q s : cwd p = cwd q → start_dir p s = start_dir q s.
Proof. unfold start_dir. now intros ->. Qed.

Lemma start_dir_absolute p q s :
  posixpath.startswith_sep s = true → start_dir p s = start_dir q s.
Proof. unfold start_dir. now intros ->. Qed.

(** Two processes that start from the same directory resolve a path alike. *)
Lemma resolve_same_start d p q s :
  start_dir p s = start_dir q s → resolve d p s = resolve d q s.
Proof. intros H. unfold resolve. now rewrite H. Qed.

Lemma node_at_same_start w p q s :
  start_dir p s = start_dir q s → node_at w p s = node_at w q s.
Proof. intros H. unfold node_at. now rewrite (resolve_same_start _ p q s H). Qed.

(** The temporary paths of two processes never resolve to the same node. *)
Lemma tmp_keys_differ d p q target k :
  resolve d p (temporary_path target p) = inr k →
  resolve d q (temporary_path target q) = inr k →
  pid p = pid q.
Proof.
  intros Hp Hq.
  destruct (resolve_tmp_shape _ _ _ _ Hp) as (init & c & cur & Hs & Hw & ->).
  destruct (resolve_tmp_shape _ _ _ _ Hq) as (init' & c' & cur' & Hs' & Hw' & Heq).
  rewrite Hs in Hs'. apply app_inj_tail in Hs' as [<- <-].
  injection Heq as Hname _.
  apply (inj (String.app c)) in Hname. now apply tmp_suffix_inj.
Qed.

Lemma quiet_step_refl target proc w : quiet_step target proc w w.
Proof. split; [apply dirs_le_refl | now left]. Qed.

Lemma quiet_step_log target proc format args w :
  quiet_step target proc w (record [Log format args] w).
Proof. split; [apply dirs_le_refl | now left]. Qed.

Lemma lookup_node_file d k content :
  lookup_node d k = Some (File content) → d !! k = Some (File content).
Proof. destruct k; simpl; done. Qed.

Lemma quiet_step_mkdir target proc w k :
  lookup_node (fs w) k = None → quiet_step target proc w (record [Mkdir k] w).
Proof.
  intros Hk. split.
  - now apply dirs_le_mkdir.
  - intros k'. change (fs (record [Mkdir k] w)) with (<[k := Dir]> (fs w)).
    rewrite lookup_node_insert by (intros ->; discriminate).
    case_decide; [subst; right; now left | now left].
Qed.

Lemma quiet_step_create target proc w k :
  resolve (fs w) proc (temporary_path target proc) = inr k →
  lookup_node (fs w) k ≠ Some Dir →
  quiet_step target proc w (record [Create k] w).
Proof.
  intros Hres Hk. split.
  - now apply dirs_le_insert_file.
  - intros k'. change (fs (record [Create k] w)) with (<[k := File []]> (fs w)).
    rewrite lookup_node_insert by now apply not_dir_not_root in Hk.
    case_decide; [subst; right; now right | now left].
Qed.

Lemma quiet_step_write target proc w k data content :
  resolve (fs w) proc (temporary_path target proc) = inr k →
  lookup_node (fs w) k = Some (File content) →
  quiet_step target proc w (record [Write k data] w).
Proof.
  intros Hres Hk.
  assert (k ≠ []) as Hroot by (intros ->; discriminate).
  split.
  - intros k' Hdir. change (fs (record [Write k data] w)) with (alter (append_data data) k (fs w)).
    rewrite lookup_node_alter by done. case_decide; [subst; congruence | done].
  - intros k'. change (fs (record [Write k data] w)) with (alter (append_data data) k (fs w)).
    rewrite lookup_node_alter by done.
    case_decide; [subst; right; now right | now left].
Qed.

Lemma quiet_step_unlink target proc w k content :
  resolve (fs w) proc (temporary_path target proc) = inr k →
  lookup_node (fs w) k = Some (File content) →
  quiet_step target proc w (record [Unlink k] w).
Proof.
  intros Hres Hk.
  assert (lookup_node (fs w) k ≠ Some Dir) as Hnd by congruence.
  split.
  - now apply dirs_le_delete_file.
  - intros k'. change (fs (record [Unlink k] w)) with (delete k (fs w)).
    rewrite lookup_node_delete by now apply not_dir_not_root in Hnd.
    case_decide; [subst; right; now right | now left].
Qed.

Lemma fs_record_rename w kt kd content :
  lookup_node (fs w) kt = Some (File content) →
  fs (record [Rename kt kd] w) = <[kd := File content]> (delete kt (fs w)).
Proof.
  intros Hkt. apply lookup_node_file in Hkt.
  change (fs (record [Rename kt kd] w)) with (apply_event (Rename kt kd) (fs w)).
  simpl. now rewrite Hkt.
Qed.

Lemma commit_step_rename target proc w kt kd content :
  resolve (fs w) proc (temporary_path target proc) = inr kt →
  resolve (fs w) proc target = inr kd →
  lookup_node (fs w) kt = Some (File content) →
  lookup_node (fs w) kd ≠ Some Dir →
  commit_step target proc w (record [Rename kt kd] w) ∧
  node_at (record [Rename kt kd] w) proc target = Some (File content).
Proof.
  intros Hkt Hkd Hfile Hnd.
  assert (lookup_node (fs w) kt ≠ Some Dir) as Hnt by congruence.
  pose proof (not_dir_not_root _ _ Hnt) as Hroot.
  pose proof (not_dir_not_root _ _ Hnd) as Hrootd.
  split; [split|].
  - rewrite (fs_record_rename _ _ _ _ Hfile). now apply dirs_le_commit.
  - intros k. rewrite (fs_record_rename _ _ _ _ Hfile).
    rewrite lookup_node_insert by done.
    case_decide; [subst; right; now right|].
    rewrite lookup_node_delete by done.
    case_decide; [subst; right; now left | now left].
  - rewrite node_at_key, (fs_record_rename _ _ _ _ Hfile), resolve_after_commit, Hkd by done.
    simpl. rewrite lookup_node_insert by done. now rewrite decide_True.
Qed.

Lemma stream_bytes_cons b buf rest :
  stream_bytes (Bytes (b :: buf) :: rest) = (b :: buf) ++ stream_bytes rest.
Proof. reflexivity. Qed.

(** A step keeps what its process holds, and either commits or is quiet. *)
Lemma put_step_inv self filename handle proc st w st' w' :
  let target := posixpath.join (binary_cache (config self)) filename in
  proc_inv self filename handle proc st w →
  put_step self filename handle st proc w = (st', w') →
  proc_inv self filename handle proc st' w' ∧
  ((committed st' = committed st ∧ quiet_step target proc w w') ∨
   (committed st = false ∧ committed st' = true ∧ commit_step target proc w w' ∧
    node_at w' proc target = Some (File (stream_bytes handle)))).
Proof.
  intros target Hinv.
  assert (∀ st0, committed st0 = committed st → proc_inv self filename handle proc st0 w →
    proc_inv self filename handle proc st0 w ∧
    ((committed st0 = committed st ∧ quiet_step target proc w w) ∨
     (committed st = false ∧ committed st0 = true ∧ commit_step target proc w w ∧
      node_at w proc target = Some (File (stream_bytes handle))))) as Hstay.
  { intros st0 Hc Hi. split; [done|]. left. split; [done|]. apply quiet_step_refl. }
  destruct st as [|cur [|c rest]| |f rest| |e| |r]; cbn [put_step]; fold target.
  - unfold logger_debug. rewrite perform_run. cbn [snd].
    case_bool_decide; intros [= <- <-]; (split; [done|]); left;
      (split; [done | apply quiet_step_log]).
  - intros [= <- <-]. now apply Hstay.
  - rewrite ensure_dir_run. cbv zeta.
    destruct (lookup_node (fs w) cur) as [[content|]|];
      try (intros [= <- <-]; now apply Hstay).
    destruct (lookup_node (fs w) (enter_component cur c)) as [[content|]|] eqn:Hnext;
      try (intros [= <- <-]; now apply Hstay).
    case_bool_decide; intros [= <- <-]; [|now apply Hstay].
    split; [done|]. left. split; [done|]. now apply quiet_step_mkdir.
  - rewrite open_file_run.
    destruct (resolve (fs w) proc (temporary_path target proc)) as [code|kt] eqn:Hkt;
      [intros [= <- <-]; now apply Hstay|].
    destruct (decide (lookup_node (fs w) kt = Some Dir)) as [Hdir|Hnd].
    { rewrite Hdir. intros [= <- <-]. now apply Hstay. }
    assert ((PCopy (FileObject kt) handle, record [Create kt] w) = (st', w') →
      proc_inv self filename handle proc st' w' ∧
      ((committed st' = committed POpen ∧ quiet_step target proc w w') ∨
       (committed POpen = false ∧ committed st' = true ∧ commit_step target proc w w' ∧
        node_at w' proc target = Some (File (stream_bytes handle))))) as Hopen.
    { intros [= <- <-].
      pose proof (quiet_step_create target proc w kt Hkt Hnd) as Hquiet.
      split; [|left; now split].
      split.
      - eapply resolve_mono; [apply Hquiet | exact Hkt].
      - exists []. split; [|done]. simpl fo_key.
        change (fs (record [Create kt] w)) with (<[kt := File []]> (fs w)).
        rewrite lookup_node_insert by now apply not_dir_not_root in Hnd.
        now rewrite decide_True. }
    destruct (lookup_node (fs w) kt) as [[content|]|]; [exact Hopen | done | exact Hopen].
  - destruct Hinv as (Hres & content & Hfile & Hbytes). fold target in Hres.
    destruct rest as [|[[|b buf]|code] rest].
    + intros [= <- <-]. split; [|left; split; [done | apply quiet_step_refl]].
      exists (fo_key f). split; [done|]. rewrite Hfile, <- (Hbytes eq_refl).
      unfold stream_bytes. simpl. now rewrite app_nil_r.
    + intros [= <- <-]. split; [|left; split; [done | apply quiet_step_refl]].
      exists (fo_key f). split; [done|]. rewrite Hfile, <- (Hbytes eq_refl).
      unfold stream_bytes. simpl. now rewrite app_nil_r.
    + unfold file_write. rewrite perform_run. cbn [snd]. intros [= <- <-].
      pose proof (quiet_step_write target proc w (fo_key f) (b :: buf) content Hres Hfile)
        as Hquiet.
      split; [|left; now split].
      split; [eapply resolve_mono; [apply Hquiet | exact Hres]|].
      exists (content ++ b :: buf). split.
      * change (fs (record [Write (fo_key f) (b :: buf)] w))
          with (alter (append_data (b :: buf)) (fo_key f) (fs w)).
        rewrite lookup_node_alter by (intros Heq; rewrite Heq in Hfile; discriminate).
        rewrite decide_True by done. now rewrite Hfile.
      * intros Hfault. rewrite <- app_assoc, <- stream_bytes_cons. now apply Hbytes.
    + intros [= <- <-]. split; [done|]. left. split; [done | apply quiet_step_refl].
  - destruct Hinv as (kt & Hkt & Hfile). fold target in Hkt.
    rewrite os_rename_run, Hkt, Hfile.
    destruct (resolve (fs w) proc target) as [code|kd] eqn:Hkd;
      [intros [= <- <-]; split; [done|]; left; split; [done | apply quiet_step_refl]|].
    destruct (decide (lookup_node (fs w) kd = Some Dir)) as [Hdir|Hnd].
    { rewrite Hdir. intros [= <- <-]. split; [done|]. left.
      split; [done | apply quiet_step_refl]. }
    assert ((PFinish, record [Rename kt kd] w) = (st', w') →
      proc_inv self filename handle proc st' w' ∧
      ((committed st' = committed PCommit ∧ quiet_step target proc w w') ∨
       (committed PCommit = false ∧ committed st' = true ∧ commit_step target proc w w' ∧
        node_at w' proc target = Some (File (stream_bytes handle))))) as Hcommit.
    { intros [= <- <-]. split; [done|]. right.
      destruct (commit_step_rename target proc w kt kd _ Hkt Hkd Hfile Hnd) as [Hstep Hnode].
      done. }
    destruct (lookup_node (fs w) kd) as [[content|]|]; [exact Hcommit | done | exact Hcommit].
  - rewrite discard_run. cbn [snd].
    destruct (resolve (fs w) proc (temporary_path target proc)) as [code|kt] eqn:Hkt;
      [intros [= <- <-]; split; [done|]; left; split; [done | apply quiet_step_refl]|].
    destruct (lookup_node (fs w) kt) as [[content|]|] eqn:Hfile;
      intros [= <- <-]; (split; [done|]); left; (split; [done|]);
      [eapply quiet_step_unlink; eassumption | apply quiet_step_refl..].
  - unfold logger_debug. rewrite perform_run. cbn [snd]. intros [= <- <-].
    split; [done|]. left. split; [done | apply quiet_step_log].
  - intros [= <- <-]. now apply Hstay.
Qed.

Section TwoProcesses.

Context (self : LocalCacheBackend) (filename : string).

(** The temporary file of [q] is out of the way of a step of [p]. *)
Lemma tmp_file_kept target p q w w' k content :
  start_dir p target = start_dir q target →
  pid p ≠ pid q →
  quiet_step target p w w' ∨ commit_step target p w w' →
  resolve (fs w) q (temporary_path target q) = inr k →
  lookup_node (fs w) k = Some (File content) →
  resolve (fs w') q (temporary_path target q) = inr k ∧
  lookup_node (fs w') k = Some (File content).
Proof.
  intros Hcwd Hpid Hstep Hk Hfile.
  assert (resolve (fs w) p (temporary_path target p) ≠ inr k) as Htmp.
  { intros Hp. apply Hpid. eapply tmp_keys_differ; eassumption. }
  assert (resolve (fs w) p target ≠ inr k) as Htarget.
  { rewrite (resolve_same_start _ p q _ Hcwd). intros Hq.
    now apply (tmp_key_ne_target _ _ _ _ _ Hk Hq). }
  destruct Hstep as [[Hle Hframe]|[Hle Hframe]].
  - split; [now apply (resolve_mono _ _ _ _ _ Hle)|].
    destruct (Hframe k) as [->|[[Hnone _]|Hp]]; [done|congruence|done].
  - split; [now apply (resolve_mono _ _ _ _ _ Hle)|].
    destruct (Hframe k) as [->|[Hp|Hp]]; done.
Qed.

(** What [q] holds is kept by a step of [p]. *)
Lemma proc_inv_kept p q h st w w' :
  let target := posixpath.join (binary_cache (config self)) filename in
  start_dir p target = start_dir q target →
  pid p ≠ pid q →
  quiet_step target p w w' ∨ commit_step target p w w' →
  proc_inv self filename h q st w →
  proc_inv self filename h q st w'.
Proof.
  intros target Hcwd Hpid Hstep. destruct st as [| | |f rest| | | |]; try done.
  - intros (Hres & content & Hfile & Hbytes).
    destruct (tmp_file_kept _ p q w w' _ _ Hcwd Hpid Hstep Hres Hfile) as [Hres' Hfile'].
    split; [exact Hres'|]. now exists content.
  - intros (kt & Hres & Hfile).
    destruct (tmp_file_kept _ p q w w' _ _ Hcwd Hpid Hstep Hres Hfile) as [Hres' Hfile'].
    now exists kt.
Qed.

(** A quiet step of [p] keeps the file under the target. *)
Lemma target_kept target p q w w' content :
  start_dir p target = start_dir q target →
  quiet_step target p w w' →
  node_at w q target = Some (File content) →
  node_at w' q target = Some (File content).
Proof.
  intros Hcwd [Hle Hframe]. unfold node_at.
  destruct (resolve (fs w) q target) as [code|kd] eqn:Hkd; [done|].
  rewrite (resolve_mono _ _ _ _ _ Hle Hkd). intros Hfile.
  destruct (Hframe kd) as [->|[[Hnone _]|Hp]]; [done|congruence|].
  rewrite <- (resolve_same_start _ p q _ Hcwd) in Hkd.
  now destruct (tmp_key_ne_target _ _ _ _ _ Hp Hkd).
Qed.

(** A step of one of two processes keeps what both hold. *)
Lemma mover_step p q h h' st stq w st' w' :
  let target := posixpath.join (binary_cache (config self)) filename in
  start_dir p target = start_dir q target →
  pid p ≠ pid q →
  proc_inv self filename h p st w →
  proc_inv self filename h' q stq w →
  target_inv self filename h h' p st stq w →
  put_step self filename h st p w = (st', w') →
  proc_inv self filename h p st' w' ∧
  proc_inv self filename h' q stq w' ∧
  target_inv self filename h h' p st' stq w'.
Proof.
  intros target Hcwd Hpid Hp Hq Htarget Hstep.
  destruct (put_step_inv _ _ _ _ _ _ _ _ Hp Hstep) as [Hp' Hkind].
  split; [exact Hp'|].
  destruct Hkind as [[Hsame Hquiet]|(Hnot & Hnow & Hcommit & Hnode)].
  - split; [eapply proc_inv_kept; eauto|].
    unfold target_inv. rewrite Hsame. intros Hsome.
    destruct (Htarget Hsome) as [[Hc Hn]|[Hc Hn]].
    + left. split; [done|]. eapply target_kept; eauto.
    + right. split; [done|]. eapply target_kept; eauto.
  - split; [eapply proc_inv_kept; eauto|].
    unfold target_inv. intros _. left. now split.
Qed.

(** The invariant of two interleaved processes. *)
Lemma interleave_inv h1 h2 p1 p2 schedule st1 st2 w st1' st2' w' :
  let target := posixpath.join (binary_cache (config self)) filename in
  start_dir p1 target = start_dir p2 target →
  pid p1 ≠ pid p2 →
  pair_inv self filename h1 h2 p1 p2 st1 st2 w →
  interleave self filename h1 h2 p1 p2 schedule st1 st2 w = (st1', st2', w') →
  pair_inv self filename h1 h2 p1 p2 st1' st2' w'.
Proof.
  intros target Hcwd Hpid. revert st1 st2 w.
  induction schedule as [|[|] schedule IH]; intros st1 st2 w (H1 & H2 & Htarget); simpl.
  - now intros [= <- <- <-].
  - destruct (put_step self filename h1 st1 p1 w) as [st1n wn] eqn:Hstep.
    apply IH.
    destruct (mover_step p1 p2 h1 h2 st1 st2 w st1n wn Hcwd Hpid H1 H2 Htarget Hstep)
      as (H1' & H2' & Htarget').
    done.
  - destruct (put_step self filename h2 st2 p2 w) as [st2n wn] eqn:Hstep.
    apply IH.
    assert (target_inv self filename h2 h1 p2 st2 st1 w) as Hswap.
    { unfold target_inv. rewrite orb_comm. intros Hsome.
      rewrite <- !(node_at_same_start _ p1 p2 _ Hcwd).
      destruct (Htarget Hsome) as [?|?]; [now right | now left]. }
    destruct (mover_step p2 p1 h2 h1 st2 st1 w st2n wn (eq_sym Hcwd) (not_eq_sym Hpid)
                H2 H1 Hswap Hstep) as (H2' & H1' & Htarget').
    split; [done|]. split; [done|].
    unfold target_inv. rewrite orb_comm. intros Hsome.
    rewrite !(node_at_same_start _ p1 p2 _ Hcwd).
    destruct (Htarget' Hsome) as [?|?]; [now right | now left].
Qed.

End TwoProcesses.

(** Once one of two interleaved processes has returned from its [put], the
    target holds the whole stream of a process that has. *)
Lemma concurrent_puts_one_returned self filename h1 h2 p1 p2 schedule w r1 r2 w' :
  let target := posixpath.join (binary_cache (config self)) filename in
  start_dir p1 target = start_dir p2 target →
  pid p1 ≠ pid p2 →
  interleave self filename h1 h2 p1 p2 schedule PStart PStart w = (PDone r1, PDone r2, w') →
  r1 = Return tt ∨ r2 = Return tt →
  (r1 = Return tt ∧ node_at w' p1 target = Some (File (stream_bytes h1))) ∨
  (r2 = Return tt ∧ node_at w' p1 target = Some (File (stream_bytes h2))).
Proof.
  intros target Hstart Hpid Hrun Hone.
  assert (pair_inv self filename h1 h2 p1 p2 PStart PStart w) as Hpair.
  { split; [done|]. split; [done|]. intros Hsome. discriminate. }
  destruct (interleave_inv _ _ _ _ _ _ _ _ _ _ _ _ _ Hstart Hpid Hpair Hrun)
    as (_ & _ & Htarget).
  assert (∀ r, committed (PDone r) = true → r = Return tt) as Hret
    by (intros [[]|e]; done).
  destruct Htarget as [[Hc Hnode]|[Hc Hnode]].
  - destruct Hone as [-> | ->]; [done|]. simpl. now rewrite orb_true_r.
  - left. split; [now apply Hret | exact Hnode].
  - right. split; [now apply Hret | exact Hnode].
Qed.

(** C8.  Two processes with distinct identifiers that resolve the target
    path from the same directory (they share their working directory, or
    the path is absolute) [put] the same filename, their system calls
    interleaved in any order: when both have returned, the target path
    leads to a regular file that holds the whole stream of the one or the
    whole stream of the other. *)
Theorem concurrent_puts self filename h1 h2 p1 p2 schedule w w' :
  let target := posixpath.join (binary_cache (config self)) filename in
  start_dir p1 target = start_dir p2 target →
  pid p1 ≠ pid p2 →
  interleave self filename h1 h2 p1 p2 schedule PStart PStart w
  = (PDone (Return tt), PDone (Return tt), w') →
  node_at w' p1 target = Some (File (stream_bytes h1)) ∨
  node_at w' p1 target = Some (File (stream_bytes h2)).
Proof.
  intros target Hcwd Hpid Hrun.
  assert (pair_inv self filename h1 h2 p1 p2 PStart PStart w) as Hstart.
  { split; [done|]. split; [done|]. intros Hsome. discriminate. }
  destruct (interleave_inv _ _ _ _ _ _ _ _ _ _ _ _ _ Hcwd Hpid Hstart Hrun)
    as (_ & _ & Htarget).
  destruct (Htarget eq_refl) as [[_ Hnode]|[_ Hnode]]; [now left | now right].
Qed.

(** ** Schedules that run one process after the other *)

Lemma interleave_app self filename h1 h2 p1 p2 s s' st1 st2 w :
  interleave self filename h1 h2 p1 p2 (s ++ s') st1 st2 w =
  let '(st1', st2', w') := interleave self filename h1 h2 p1 p2 s st1 st2 w in
  interleave self filename h1 h2 p1 p2 s' st1' st2' w'.
Proof.
  revert st1 st2 w. induction s as [|[|] s IH]; intros st1 st2 w; simpl; [reflexivity|..].
  - destruct (put_step self filename h1 st1 p1 w) as [st1' w']. apply IH.
  - destruct (put_step self filename h2 st2 p2 w) as [st2' w']. apply IH.
Qed.

Lemma interleave_first self filename h1 h2 p1 p2 n st1 st2 w :
  interleave self filename h1 h2 p1 p2 (repeat true n) st1 st2 w =
  let '(st1', w') := run_steps self filename h1 n st1 p1 w in (st1', st2, w').
Proof.
  revert st1 w. induction n as [|n IH]; intros st1 w; simpl; [reflexivity|].
  destruct (put_step self filename h1 st1 p1 w) as [st1' w']. apply IH.
Qed.

Lemma interleave_second self filename h1 h2 p1 p2 n st1 st2 w :
  interleave self filename h1 h2 p1 p2 (repeat false n) st1 st2 w =
  let '(st2', w') := run_steps self filename h2 n st2 p2 w in (st1, st2', w').
Proof.
  revert st2 w. induction n as [|n IH]; intros st2 w; simpl; [reflexivity|].
  destruct (put_step self filename h2 st2 p2 w) as [st2' w']. apply IH.
Qed.

(** The schedule that lets the first process finish before the second
    starts is one [put] after the other. *)
Lemma interleave_sequential self filename h1 h2 p1 p2 w r1 w1 r2 w2 :
  put self filename h1 p1 w = (r1, w1) →
  put self filename h2 p2 w1 = (r2, w2) →
  interleave self filename h1 h2 p1 p2
    (repeat true (put_steps self filename h1) ++ repeat false (put_steps self filename h2))
    PStart PStart w
  = (PDone r1, PDone r2, w2).
Proof.
  intros H1 H2. rewrite interleave_app, interleave_first.
  unfold put_steps. rewrite (run_steps_put _ _ _ _ _ _ _ H1).
  rewrite interleave_second. now rewrite (run_steps_put _ _ _ _ _ _ _ H2).
Qed.

(** ** The claims on the small cache *)

Lemma put_scope_error_keeps_target_witness :
  put cache "pkg/a.tar.gz" broken_stream proc7 empty_world
  = (Raise (Exn OSError (Some EIO)), after_abort) ∧
  node_at after_abort proc7 (temporary_path "/var/cache/pkg/a.tar.gz" proc7) = None ∧
  node_at after_abort proc7 "/var/cache/pkg/a.tar.gz" = None.
Proof.
  destruct (put_scope_error_keeps_target cache "pkg/a.tar.gz" broken_stream proc7
              empty_world at_scope_entry (Exn OSError (Some EIO)) after_abort)
    as (Hput & _ & Hgone & Htarget).
  - vm_compute. reflexivity.
  - vm_compute. reflexivity.
  - split; [exact Hput|]. split.
    + apply Hgone. vm_compute. discriminate.
    + etrans; [exact Htarget|]. vm_compute. reflexivity.
Defined.

Lemma put_then_get_witness :
  node_at after_put proc7 "/var/cache/pkg/a.tar.gz" = Some (File hello) ∧
  fst (get cache "pkg/a.tar.gz" proc7 after_put) = Return (Some "/var/cache/pkg/a.tar.gz").
Proof.
  destruct (put_then_get cache "pkg/a.tar.gz" [Bytes hello] proc7 empty_world after_put)
    as [Hnode Hget].
  - vm_compute. reflexivity.
  - split; [exact Hnode|]. now rewrite Hget.
Defined.

Lemma get_clean_miss_witness :
  fst (get cache "pkg/b.tar.gz" proc7 after_put) = Return None.
Proof.
  destruct (get_clean_miss cache "pkg/b.tar.gz" proc7 ∅ after_put) as [Hget _].
  - vm_compute. reflexivity.
  - vm_compute. reflexivity.
  - now rewrite Hget.
Defined.

Lemma put_order_witness :
  ∃ dirs kt kd,
    trace after_put =
      [Log "Storing distribution archive in local cache: %s" ["/var/cache/pkg/a.tar.gz"]]
      ++ map Mkdir dirs
      ++ [Create kt; Write kt hello; Rename kt kd;
          Log "Finished caching distribution archive in local cache." []] ∧
    node_at after_put proc7 "/var/cache/pkg/a.tar.gz" = Some (File hello).
Proof.
  destruct (put_order cache "pkg/a.tar.gz" [Bytes hello] proc7 empty_world after_put)
    as (dirs & kt & kd & Htrace & _ & _ & _ & _ & Hnode).
  - vm_compute. reflexivity.
  - exists dirs, kt, kd. split; [exact Htrace | exact Hnode].
Defined.

Lemma put_twice_witness :
  put cache "pkg/a.tar.gz" [Bytes hello] proc7 after_put = (Return tt, after_second_put) ∧
  node_at after_second_put proc7 "/var/cache/pkg/a.tar.gz" = Some (File hello) ∧
  node_at after_second_put proc7 (temporary_path "/var/cache/pkg/a.tar.gz" proc7) = None.
Proof.
  destruct (put_twice cache "pkg/a.tar.gz" [Bytes hello] [Bytes hello] proc7
              empty_world after_put)
    as (w2 & Hput2 & _ & _ & _ & Hnode2 & _ & Hgone2 & _).
  - vm_compute. reflexivity.
  - reflexivity.
  - reflexivity.
  - assert (w2 = after_second_put) as -> by (unfold after_second_put; now rewrite Hput2).
    split; [exact Hput2|]. split; [exact Hnode2 | exact Hgone2].
Defined.

Lemma concurrent_puts_witness :
  node_at after_both proc7 "/var/cache/pkg/a.tar.gz" = Some (File hello) ∨
  node_at after_both proc7 "/var/cache/pkg/a.tar.gz" = Some (File world_bytes).
Proof.
  apply (concurrent_puts cache "pkg/a.tar.gz" [Bytes hello] [Bytes world_bytes] proc7 proc8
           alternate empty_world after_both).
  - reflexivity.
  - simpl. lia.
  - vm_compute. reflexivity.
Defined.

Lemma get_directory_is_miss_witness :
  fst (get cache "pkg" proc7 after_put) = Return None.
Proof.
  rewrite (get_directory_is_miss cache "pkg" proc7 after_put).
  - reflexivity.
  - vm_compute. reflexivity.
Defined.

(** * Further properties of the code *)

(** ** More of the exception hierarchy *)

(** X1.  Every exception class of the module derives from
    [PipAcceleratorError]; the built-in [Exception] and [OSError] do not. *)
Theorem module_classes_share_base (c : exc_class) :
  issubclass c PipAcceleratorError = true ↔ c ≠ Exception ∧ c ≠ OSError.
Proof. destruct c; (split; [intros H; try discriminate H; split; discriminate | intros [H1 H2]; try reflexivity; congruence]). Qed.


(** X3.  [issubclass] is a partial order on the classes: the depth bound of
    the chain of bases cuts no chain short. *)
Theorem issubclass_partial_order (c d e : exc_class) :
  issubclass c c = true ∧
  implb (issubclass c d && issubclass d e) (issubclass c e) = true ∧
  implb (issubclass c d && issubclass d c) (bool_decide (c = d)) = true ∧
  match base c with
  | Some b => issubclass c b = true
  | None => c = Exception
  end.
Proof.
  split; [now destruct c|]. split; [|split].
  - destruct c, d; try reflexivity; destruct e; reflexivity.
  - destruct c, d; reflexivity.
  - destruct c; reflexivity.
Qed.

(** X4.  Inheritance is single: the classes an exception is an instance of
    form a chain, so two handlers that both handle some exception are
    nested, one class deriving from the other. *)
Theorem handlers_nested (e : exn) (c d : exc_class) :
  catches c e = true →
  catches d e = true →
  issubclass c d = true ∨ issubclass d c = true.
Proof.
  destruct e as [t code]. unfold catches. simpl.
  destruct t, c; try discriminate; intros _; destruct d; try discriminate; intros _;
    (left; reflexivity) || (right; reflexivity).
Qed.

Lemma handlers_nested_witness :
  issubclass CacheBackendError PipAcceleratorError = true ∨
  issubclass PipAcceleratorError CacheBackendError = true.
Proof.
  apply (handlers_nested (Exn CacheBackendDisabledError None)); reflexivity.
Defined.

(** X5.  The three families of errors are disjoint: no exception is handled
    by the handlers of two of [BinaryDistributionError], [CacheBackendError]
    and [SystemDependencyError]. *)
Theorem error_families_disjoint (e : exn) :
  catches BinaryDistributionError e && catches CacheBackendError e = false ∧
  catches BinaryDistributionError e && catches SystemDependencyError e = false ∧
  catches CacheBackendError e && catches SystemDependencyError e = false.
Proof. destruct e as [t code]. destruct t; repeat split; reflexivity. Qed.

(** ** Filenames and the cache directory *)

(** X6.  A filename that begins with a slash replaces the cache directory:
    [get] and [put] of it do not depend on [binary_cache]. *)
Theorem absolute_filename_ignores_cache_directory self self' filename handle proc w :
  posixpath.startswith_sep filename = true →
  get self filename proc w = get self' filename proc w ∧
  put self filename handle proc w = put self' filename handle proc w.
Proof.
  intros Habs.
  assert (∀ root, posixpath.join root filename = filename) as Hjoin
    by (intros root; unfold posixpath.join; now rewrite Habs).
  unfold get, put. now rewrite !Hjoin.
Qed.

Lemma head_part_no_sep f : posixpath.has_sep f = false → posixpath.head_part f = "".
Proof. destruct f as [|c f]; [done|]. simpl. now intros ->. Qed.

Lemma head_part_app_sep a f :
  posixpath.has_sep f = false →
  posixpath.head_part (a +:+ "/" +:+ f) = a +:+ "/".
Proof.
  intros Hf. induction a as [|c a IH].
  - change ("" +:+ "/" +:+ f) with (String "/" f).
    change (posixpath.head_part (String "/" f)) with (String "/" (posixpath.head_part f)).
    now rewrite head_part_no_sep.
  - change (String c a +:+ "/" +:+ f) with (String c (a +:+ "/" +:+ f)).
    assert (posixpath.has_sep (String c (a +:+ "/" +:+ f)) = true) as Hsep.
    { assert (posixpath.has_sep ("/" +:+ f) = true) as Hs by reflexivity.
      simpl. rewrite has_sep_app, Hs. now rewrite !orb_true_r. }
    change (posixpath.head_part (String c (a +:+ "/" +:+ f)))
      with (if posixpath.has_sep (String c (a +:+ "/" +:+ f))
            then String c (posixpath.head_part (a +:+ "/" +:+ f)) else "").
    now rewrite Hsep, IH.
Qed.

Lemma rstrip_sep_app_sep a : posixpath.rstrip_sep (a +:+ "/") = posixpath.rstrip_sep a.
Proof.
  induction a as [|c a IH]; [reflexivity|].
  change (String c a +:+ "/") with (String c (a +:+ "/")). simpl. now rewrite IH.
Qed.

Lemma rstrip_sep_id a : posixpath.endswith_sep a = false → posixpath.rstrip_sep a = a.
Proof.
  induction a as [|c a IH]; [reflexivity|]. simpl.
  destruct a as [|c' a].
  - intros ->. reflexivity.
  - intros H. rewrite (IH H). now rewrite andb_false_r.
Qed.

Lemma all_sep_endswith a : a ≠ "" → posixpath.all_sep a = true → posixpath.endswith_sep a = true.
Proof.
  induction a as [|c a IH]; [done|]. intros _. simpl.
  intros [Hc Ha]%andb_true_iff. destruct a as [|c' a]; [exact Hc|]. now apply IH.
Qed.

Lemma all_sep_app a b : posixpath.all_sep (a +:+ b) = posixpath.all_sep a && posixpath.all_sep b.
Proof. induction a as [|c a IH]; [reflexivity|]. simpl. now rewrite IH, andb_assoc. Qed.

Lemma dirname_join_flat root filename :
  posixpath.has_sep filename = false →
  posixpath.endswith_sep root = false →
  posixpath.dirname (posixpath.join root filename) = root.
Proof.
  intros Hflat Hroot.
  assert (posixpath.startswith_sep filename = false) as Hrel
    by (destruct filename; [done|]; simpl in *; now apply orb_false_iff in Hflat as [-> _]).
  unfold posixpath.join. rewrite Hrel, Hroot, orb_false_r.
  case_bool_decide as Hempty.
  - subst root. unfold posixpath.dirname. simpl. now rewrite head_part_no_sep.
  - unfold posixpath.dirname. rewrite head_part_app_sep by done.
    assert (posixpath.all_sep (root +:+ "/") = false) as Hall.
    { rewrite all_sep_app. simpl. rewrite andb_true_r.
      destruct (posixpath.all_sep root) eqn:Hall; [|done].
      rewrite (all_sep_endswith root Hempty Hall) in Hroot. discriminate. }
    rewrite Hall. simpl negb. rewrite andb_true_r.
    rewrite bool_decide_eq_false_2 by (now destruct root).
    simpl. now rewrite rstrip_sep_app_sep, rstrip_sep_id.
Qed.

(** X7.  A filename without a slash is stored in the cache directory
    itself: the directory [put] makes sure of is [binary_cache], when that
    is written without a trailing slash. *)
Theorem flat_filename_directory root filename :
  posixpath.has_sep filename = false →
  posixpath.endswith_sep root = false →
  posixpath.dirname (posixpath.join root filename) = root.
Proof. exact (dirname_join_flat root filename). Qed.

Lemma flat_filename_directory_witness :
  posixpath.dirname (posixpath.join "/var/cache" "pkg.tar.gz") = "/var/cache".
Proof. apply flat_filename_directory; reflexivity. Defined.

Lemma split_sep_single_empty p : posixpath.split_sep p = [""] → p = "".
Proof.
  destruct p as [|c p]; [done|]. simpl.
  pose proof (split_sep_nonempty p) as Hne.
  destruct (posixpath.is_sep c); destruct (posixpath.split_sep p) as [|h t]; done.
Qed.

Lemma split_sep_endswith p :
  posixpath.endswith_sep p = true → ∃ init, posixpath.split_sep p = init ++ [""].
Proof.
  induction p as [|c p IH]; [done|].
  destruct p as [|c' p].
  - simpl. intros ->. now exists [""].
  - intros Hend. destruct (IH Hend) as [init Hinit].
    change (posixpath.split_sep (String c (String c' p)))
      with (if posixpath.is_sep c then "" :: posixpath.split_sep (String c' p)
            else match posixpath.split_sep (String c' p) with
                 | h :: t => String c h :: t
                 | [] => [String c ""]
                 end).
    rewrite Hinit. destruct (posixpath.is_sep c).
    + now exists ("" :: init).
    + destruct init as [|h t].
      * apply split_sep_single_empty in Hinit. discriminate.
      * now exists (String c h :: t).
Qed.

(** A path that ends with a slash leads to a directory or to nothing. *)
Lemma resolve_trailing_sep d proc p k :
  posixpath.endswith_sep p = true →
  resolve d proc p = inr k →
  lookup_node d k = Some Dir.
Proof.
  intros Hend. unfold resolve. case_bool_decide; [done|].
  destruct (split_sep_endswith p Hend) as [init ->]. rewrite walk_app.
  destruct (walk d (start_dir proc p) init) as [code|cur]; [done|]. simpl.
  destruct (lookup_node d cur) as [[content|]|] eqn:Hcur; try done.
  now intros [= <-].
Qed.

Lemma endswith_sep_app a b :
  b ≠ "" → posixpath.endswith_sep (a +:+ b) = posixpath.endswith_sep b.
Proof.
  intros Hb. induction a as [|c a IH]; [reflexivity|].
  change (String c a +:+ b) with (String c (a +:+ b)).
  destruct (a +:+ b) as [|c' r] eqn:Hab.
  - destruct a; [simpl in Hab; now subst | discriminate].
  - exact IH.
Qed.

Lemma string_app_empty_r a : a +:+ "" = a.
Proof.
  induction a as [|c a IH]; [reflexivity|].
  change (String c a +:+ "") with (String c (a +:+ "")). now rewrite IH.
Qed.

Lemma join_trailing_sep root filename :
  filename = "" ∨ posixpath.endswith_sep filename = true →
  posixpath.join root filename = "" ∨
  posixpath.endswith_sep (posixpath.join root filename) = true.
Proof.
  intros [->|Hend].
  - unfold posixpath.join. simpl. case_bool_decide as Hroot; simpl.
    + subst. now left.
    + right. destruct (posixpath.endswith_sep root) eqn:Hr.
      * now rewrite string_app_empty_r.
      * now rewrite endswith_sep_app.
  - right. assert (filename ≠ "") as Hne by (intros ->; discriminate).
    unfold posixpath.join. destruct (posixpath.startswith_sep filename); [done|].
    destruct (bool_decide (root = "") || posixpath.endswith_sep root).
    + now rewrite endswith_sep_app.
    + rewrite endswith_sep_app by (now destruct filename).
      now rewrite (endswith_sep_app "/" filename).
Qed.

Lemma node_at_trailing_sep w proc p content :
  p = "" ∨ posixpath.endswith_sep p = true →
  node_at w proc p ≠ Some (File content).
Proof.
  intros Hp. unfold node_at.
  destruct (resolve (fs w) proc p) as [code|k] eqn:Hres; [done|].
  destruct Hp as [->|Hend]; [done|].
  now rewrite (resolve_trailing_sep _ _ _ _ Hend Hres).
Qed.

(** X8.  The empty filename, and a filename that ends with a slash, name no
    archive: [get] of it is a miss in every world and [put] of it raises in
    every world. *)
Theorem filename_without_name self filename :
  filename = "" ∨ posixpath.endswith_sep filename = true →
  (∀ proc w, fst (get self filename proc w) = Return None) ∧
  (∀ handle proc w, ∃ e, fst (put self filename handle proc w) = Raise e).
Proof.
  intros Hname.
  pose proof (join_trailing_sep (binary_cache (config self)) filename Hname) as Hpath.
  split.
  - intros proc w. rewrite get_miss; [reflexivity|].
    intros content. now apply node_at_trailing_sep.
  - intros handle proc w.
    destruct (put self filename handle proc w) as [[[]|e] w'] eqn:Hput; [|now exists e].
    pose proof (put_returns_target _ _ _ _ _ _ Hput) as Hnode.
    now destruct (node_at_trailing_sep w' proc _ (stream_bytes handle) Hpath).
Qed.

Lemma filename_without_name_witness :
  fst (get cache "pkg/" proc7 after_put) = Return None ∧
  ∃ e, fst (put cache "" [Bytes hello] proc7 empty_world) = Raise e.
Proof.
  split.
  - apply (filename_without_name cache "pkg/"). right. reflexivity.
  - apply (filename_without_name cache ""). left. reflexivity.
Defined.

(** ** What [put] does to the rest of the disk *)

(** The disk after a [put]: directories were added; then nothing more, or
    the temporary file was deleted, or it was renamed onto the target. *)
Lemma put_disk self filename handle proc w r w' :
  let target := posixpath.join (binary_cache (config self)) filename in
  let tmp := temporary_path target proc in
  put self filename handle proc w = (r, w') →
  ∃ wa,
    adds_dirs (fs w) (fs wa) ∧
    (((∃ e, r = Raise e) ∧ fs w' = fs wa) ∨
     (∃ e kt,
        r = Raise e ∧
        resolve (fs wa) proc tmp = inr kt ∧
        lookup_node (fs wa) kt ≠ Some Dir ∧
        fs w' = delete kt (fs wa)) ∨
     (∃ kt kd,
        r = Return tt ∧
        resolve (fs wa) proc tmp = inr kt ∧
        lookup_node (fs wa) kt ≠ Some Dir ∧
        resolve (fs wa) proc target = inr kd ∧
        lookup_node (fs wa) kd ≠ Some Dir ∧
        kt ≠ kd ∧
        fs w' = <[kd := File (stream_bytes handle)]> (delete kt (fs wa)))).
Proof.
  intros target tmp. rewrite put_run. cbv zeta. fold target.
  destruct (makedirs _ proc _) as [[[]|e] wa] eqn:Hmk;
    destruct (makedirs_spec _ _ _ _ _ Hmk) as (dirs & Hwa & Hadds & _);
    rewrite fs_record_log in Hadds.
  2: { intros [= <- <-]. exists wa. split; [done|]. left. eauto. }
  destruct (with_ _ _ proc wa) as [r1 w1] eqn:Hscope. intros Hrun.
  apply scope_cases in Hscope. exists wa. split; [done|].
  inversion Hscope as [code Hclosed|kt code Hkt Hnd Hcause|kt kd Hkt Hnd Hfault Hkd Hndd];
    subst; injection Hrun as <- <-.
  - left. eauto.
  - right. left. exists (Exn OSError (Some code)), kt.
    do 3 (split; [done|]). apply fs_scope_aborted. now apply not_dir_not_root in Hnd.
  - right. right. exists kt, kd. do 5 (split; [done|]).
    split; [eapply tmp_key_ne_target; eassumption|].
    rewrite fs_record_log. apply fs_scope_committed. now apply not_dir_not_root in Hnd.
Qed.

(** [put] removes no directory, whatever its outcome. *)
Lemma put_dirs_le self filename handle proc w r w' :
  put self filename handle proc w = (r, w') → dirs_le (fs w) (fs w').
Proof.
  intros Hput.
  destruct (put_disk _ _ _ _ _ _ _ Hput)
    as (wa & Hadds%adds_dirs_le &
        [[_ ->]|[(e & kt & _ & _ & Hnd & ->)|(kt & kd & _ & _ & Hnd & _ & Hndd & _ & ->)]]).
  - exact Hadds.
  - eapply dirs_le_trans; [exact Hadds|]. now apply dirs_le_delete_file.
  - eapply dirs_le_trans; [exact Hadds|]. now apply dirs_le_commit.
Qed.

Lemma put_keeps_other_nodes_aux self filename handle proc w r w' k n :
  let target := posixpath.join (binary_cache (config self)) filename in
  put self filename handle proc w = (r, w') →
  lookup_node (fs w) k = Some n →
  resolve (fs w') proc target ≠ inr k →
  resolve (fs w') proc (temporary_path target proc) ≠ inr k →
  lookup_node (fs w') k = Some n.
Proof.
  intros target Hput Hk Htarget Htmp.
  destruct (put_disk _ _ _ _ _ _ _ Hput) as (wa & Hadds & Hcases).
  fold target in Hcases.
  assert (lookup_node (fs wa) k = Some n) as Hka
    by (destruct (Hadds k) as [->|[Hnone _]]; congruence).
  destruct Hcases
    as [[_ Hfs]|[(e & kt & _ & Hkt & Hnd & Hfs)|(kt & kd & _ & Hkt & Hnd & Hkd & Hndd & _ & Hfs)]];
    rewrite Hfs in *.
  - exact Hka.
  - rewrite lookup_node_delete by now apply not_dir_not_root in Hnd.
    rewrite decide_False; [exact Hka|]. intros <-. apply Htmp, key_of_inr.
    now rewrite resolve_after_delete, Hkt.
  - rewrite lookup_node_insert by now apply not_dir_not_root in Hndd.
    rewrite decide_False.
    2: { intros <-. apply Htarget, key_of_inr. now rewrite resolve_after_commit, Hkd. }
    rewrite lookup_node_delete by now apply not_dir_not_root in Hnd.
    rewrite decide_False; [exact Hka|]. intros <-. apply Htmp, key_of_inr.
    now rewrite resolve_after_commit, Hkt.
Qed.

(** X9.  Whatever its outcome, [put] leaves every node of the disk as it
    was, except where the target path and its temporary path lead: it
    removes and alters no other file and no directory. *)
Theorem put_keeps_other_nodes self filename handle proc w r w' k n :
  let target := posixpath.join (binary_cache (config self)) filename in
  put self filename handle proc w = (r, w') →
  lookup_node (fs w) k = Some n →
  resolve (fs w') proc target ≠ inr k →
  resolve (fs w') proc (temporary_path target proc) ≠ inr k →
  lookup_node (fs w') k = Some n.
Proof. exact (put_keeps_other_nodes_aux self filename handle proc w r w' k n). Qed.

(** X10.  A [put] that raises leaves no new regular file on the disk and the
    content of none changed. *)
Theorem put_raise_creates_no_file self filename handle proc w e w' k content :
  put self filename handle proc w = (Raise e, w') →
  lookup_node (fs w') k = Some (File content) →
  lookup_node (fs w) k = Some (File content).
Proof.
  intros Hput Hk.
  destruct (put_disk _ _ _ _ _ _ _ Hput) as (wa & Hadds & Hcases).
  assert (lookup_node (fs wa) k = Some (File content) →
          lookup_node (fs w) k = Some (File content)) as Hback
    by (intros Hka; destruct (Hadds k) as [Heq|[_ Hdir]]; congruence).
  destruct Hcases as [[_ Hfs]|[(e' & kt & _ & _ & Hnd & Hfs)|(kt & kd & Hr & _)]];
    [| |discriminate]; rewrite Hfs in Hk.
  - now apply Hback.
  - rewrite lookup_node_delete in Hk by now apply not_dir_not_root in Hnd.
    case_decide; [done | now apply Hback].
Qed.

(** X11.  A [put] that raises keeps the archive that was cached under the
    filename: the target path leads to the same file as before, and [get]
    still returns the path. *)
Theorem put_raise_keeps_archive self filename handle proc w e w' content :
  let target := posixpath.join (binary_cache (config self)) filename in
  put self filename handle proc w = (Raise e, w') →
  node_at w proc target = Some (File content) →
  node_at w' proc target = Some (File content) ∧
  fst (get self filename proc w') = Return (Some target).
Proof.
  intros target Hput Hnode.
  assert (node_at w' proc target = Some (File content)) as Hnode'.
  { pose proof (put_dirs_le _ _ _ _ _ _ _ Hput) as Hle.
    unfold node_at in *.
    destruct (resolve (fs w) proc target) as [code|kd] eqn:Hkd; [done|].
    rewrite (resolve_mono _ _ _ _ _ Hle Hkd).
    destruct (put_disk _ _ _ _ _ _ _ Hput) as (wa & Hadds & Hcases).
    fold target in Hcases.
    assert (lookup_node (fs wa) kd = Some (File content)) as Hka
      by (destruct (Hadds kd) as [->|[Hnone _]]; congruence).
    destruct Hcases as [[_ Hfs]|[(e' & kt & _ & Hkt & Hnd & Hfs)|(kt & kd' & Hr & _)]];
      [| |discriminate]; rewrite Hfs.
    - exact Hka.
    - rewrite lookup_node_delete by now apply not_dir_not_root in Hnd.
      rewrite decide_False; [exact Hka|].
      apply (tmp_key_ne_target _ _ _ _ _ Hkt).
      apply (resolve_mono _ _ _ _ _ (adds_dirs_le _ _ Hadds) Hkd). }
  split; [exact Hnode'|]. now rewrite (get_hit _ _ _ _ _ Hnode').
Qed.

(** X12.  An archive is not disturbed by the [put] of another filename,
    whatever its outcome, provided the other target path and its temporary
    path lead elsewhere: the archive keeps its content and [get] returns
    its path. *)
Theorem put_keeps_other_archive self filename other handle proc w r w' content :
  let target := posixpath.join (binary_cache (config self)) filename in
  let target' := posixpath.join (binary_cache (config self)) other in
  node_at w proc target = Some (File content) →
  put self other handle proc w = (r, w') →
  resolve (fs w') proc target' ≠ resolve (fs w') proc target →
  resolve (fs w') proc (temporary_path target' proc) ≠ resolve (fs w') proc target →
  node_at w' proc target = Some (File content) ∧
  fst (get self filename proc w') = Return (Some target).
Proof.
  intros target target' Hnode Hput Htarget Htmp.
  assert (node_at w' proc target = Some (File content)) as Hnode'.
  { pose proof (put_dirs_le _ _ _ _ _ _ _ Hput) as Hle.
    unfold node_at in *.
    destruct (resolve (fs w) proc target) as [code|k] eqn:Hk; [done|].
    rewrite (resolve_mono _ _ _ _ _ Hle Hk) in *.
    now apply (put_keeps_other_nodes_aux self other handle proc w r w' k). }
  split; [exact Hnode'|]. now rewrite (get_hit _ _ _ _ _ Hnode').
Qed.

(** ** When [get] hits and when [put] returns *)

(** X13.  [get] returns a path exactly when root/filename leads to a regular
    file, and the path it returns is root/filename. *)
Theorem get_returns_path_iff self filename proc w p :
  let pathname := posixpath.join (binary_cache (config self)) filename in
  fst (get self filename proc w) = Return (Some p) ↔
  p = pathname ∧ is_file (node_at w proc pathname) = true.
Proof.
  intros pathname. rewrite get_run. cbv zeta. fold pathname.
  destruct (node_at w proc pathname) as [[content|]|]; simpl; split;
    try (intros [= <-]; done); try (intros [_ H]; done).
  intros [-> _]. reflexivity.
Qed.






(** X15.  A [put] that is made again with the same bytes leaves the whole
    disk as the first [put] left it. *)
Theorem put_again_same_disk self filename handle handle' proc w w1 w2 :
  put self filename handle proc w = (Return tt, w1) →
  put self filename handle' proc w1 = (Return tt, w2) →
  stream_bytes handle' = stream_bytes handle →
  fs w2 = fs w1.
Proof.
  intros Hput Hput2 Hbytes.
  destruct (put_returns_inv _ _ _ _ _ _ Hput)
    as (dirs & kt & kd & wa & _ & _ & (kp & Hkp & Hdir) & Hkt & Hnd & _ & Hkd & Hndd & Hne & _ & Hfs).
  set (target := posixpath.join (binary_cache (config self)) filename) in *.
  pose proof (dirs_le_commit kt kd (stream_bytes handle) (fs wa) Hnd Hndd) as Hle.
  rewrite <- Hfs in Hle.
  pose proof (not_dir_not_root _ _ Hnd) as Hroot.
  pose proof (not_dir_not_root _ _ Hndd) as Hrootd.
  revert Hput2. rewrite put_run. cbv zeta. fold target.
  set (wl := record [Log "Storing distribution archive in local cache: %s" [target]] w1).
  assert (fs wl = fs w1) as Hwl by reflexivity.
  rewrite (makedirs_exists _ proc wl kp).
  2: { rewrite Hwl. eapply resolve_mono; eassumption. }
  2: { rewrite Hwl. now apply Hle. }
  destruct (with_ _ _ proc wl) as [r w3] eqn:Hscope.
  apply scope_cases in Hscope.
  assert (resolve (fs wl) proc (temporary_path target proc) = inr kt) as Hkt'
    by (rewrite Hwl; eapply resolve_mono; eassumption).
  assert (resolve (fs wl) proc target = inr kd) as Hkd'
    by (rewrite Hwl; eapply resolve_mono; eassumption).
  inversion Hscope as [| |kt' kd' Hkt2 _ _ Hkd2 _]; subst; [done..|].
  intros [= <-]. rewrite fs_record_log, fs_scope_committed by congruence.
  assert (kt' = kt) as -> by congruence. assert (kd' = kd) as -> by congruence.
  rewrite Hwl, Hfs, Hbytes.
  rewrite delete_insert_ne by done. rewrite delete_delete_eq. apply insert_insert_eq.
Qed.

(** ** No partial archive is ever seen *)




(** ** The further properties on the small cache *)

Lemma absolute_filename_ignores_cache_directory_witness :
  get cache "/srv/a.tar.gz" proc7 after_put
  = get {| config := {| binary_cache := "elsewhere" |} |} "/srv/a.tar.gz" proc7 after_put.
Proof.
  apply (absolute_filename_ignores_cache_directory cache
           {| config := {| binary_cache := "elsewhere" |} |} "/srv/a.tar.gz" [] proc7 after_put).
  reflexivity.
Defined.

Lemma put_keeps_other_nodes_witness :
  lookup_node (fs after_other_put) archive_key = Some (File hello).
Proof.
  apply (put_keeps_other_nodes cache "pkg/b.tar.gz" [Bytes world_bytes] proc7 after_put
           (Return tt) after_other_put archive_key (File hello)).
  - vm_compute. reflexivity.
  - vm_compute. reflexivity.
  - vm_compute. discriminate.
  - vm_compute. discriminate.
Defined.

Lemma put_raise_creates_no_file_witness :
  lookup_node (fs after_put) archive_key = Some (File hello).
Proof.
  apply (put_raise_creates_no_file cache "pkg/a.tar.gz" broken_stream proc7 after_put
           (Exn OSError (Some EIO)) after_failed_put archive_key hello).
  - vm_compute. reflexivity.
  - vm_compute. reflexivity.
Defined.

Lemma put_raise_keeps_archive_witness :
  node_at after_failed_put proc7 "/var/cache/pkg/a.tar.gz" = Some (File hello) ∧
  fst (get cache "pkg/a.tar.gz" proc7 after_failed_put)
  = Return (Some "/var/cache/pkg/a.tar.gz").
Proof.
  apply (put_raise_keeps_archive cache "pkg/a.tar.gz" broken_stream proc7 after_put
           (Exn OSError (Some EIO)) after_failed_put hello).
  - vm_compute. reflexivity.
  - vm_compute. reflexivity.
Defined.

Lemma put_keeps_other_archive_witness :
  node_at after_other_put proc7 "/var/cache/pkg/a.tar.gz" = Some (File hello) ∧
  fst (get cache "pkg/a.tar.gz" proc7 after_other_put)
  = Return (Some "/var/cache/pkg/a.tar.gz").
Proof.
  apply (put_keeps_other_archive cache "pkg/a.tar.gz" "pkg/b.tar.gz" [Bytes world_bytes]
           proc7 after_put (Return tt) after_other_put hello).
  - vm_compute. reflexivity.
  - vm_compute. reflexivity.
  - vm_compute. discriminate.
  - vm_compute. discriminate.
Defined.


Lemma put_again_same_disk_witness : fs after_second_put = fs after_put.
Proof.
  apply (put_again_same_disk cache "pkg/a.tar.gz" [Bytes hello] [Bytes hello] proc7
           empty_world after_put after_second_put).
  - vm_compute. reflexivity.
  - vm_compute. reflexivity.
  - reflexivity.
Defined.

